(** * VID2MID: the event-to-score mapper, embedded and verified

    This development embeds the mapping stage of VID2MID
    ([core/midi_mapper.py], with the preset update of
    [core/config_manager.py]) and proves the properties its specification
    states about it; further on it covers the loading of the
    configuration and the region of interest of
    [core/motion_detector.py].

    Conventions of the embedding.
    - Python numbers are exact: an [int] is a [Z], a [float] is a rational
      ([Q]); rounding errors of IEEE arithmetic are not modelled.
    - [int(x)] truncates towards zero ([py_int]); [%] with a positive
      modulus lands in [[0, modulus)] ([py_mod]).
    - A sample (a Python [dict] with string keys and numeric values) is a
      [gmap string Qc]: canonical rationals make Leibniz equality coincide
      with Python's [==] on such dictionaries.
    - Code that can raise returns a [result]; the constructor of a mido
      [Message] raises [ValueError] on a data byte outside [0..127], as the
      mido library documents.
    - Writing the file ([mid.save]) belongs to mido; the embedding ends
      with the [MidiFile] object that is handed to it. *)

From Stdlib Require Import Reals Qreals Lra.
From Stdlib Require Import ZArith QArith Qround Qabs Qcanon Lia Lqa.
From stdpp Require Import gmap strings list fin_maps.

Local Open Scope Z_scope.
Local Set Warnings "-register-all".

(** ** Python primitives *)

Module Py.

(** The exceptions the mapper can raise. *)
Inductive exn : Set :=
| KeyError
| ValueError
| ZeroDivisionError
| IndexError.

Inductive result (A : Type) : Type :=
| Ok (a : A)
| Raise (e : exn).
Arguments Ok {A} a.
Arguments Raise {A} e.

Definition bind {A B} (m : result A) (k : A → result B) : result B :=
  match m with
  | Ok a => k a
  | Raise e => Raise e
  end.

Definition is_ok {A} (m : result A) : Prop := ∃ a, m = Ok a.

(** [int(x)] on a float: truncation towards zero. *)
Definition py_int (q : Q) : Z := Z.quot (Qnum q) (Zpos (Qden q)).

(** [x % m] on floats, for a positive modulus [m]. *)
Definition py_mod (x m : Q) : Q := (x - m * inject_Z (Qfloor (x / m)))%Q.

(** [min(a, b)] and [abs(a)] on numbers. *)
Definition py_min (a b : Q) : Q := if Qlt_le_dec b a then b else a.
Definition py_abs (a : Q) : Q := Qabs a.

(** [int(math.sqrt(v) * k)] for an integer [k >= 0]:
    [math.sqrt] raises [ValueError] on a negative argument; otherwise
    the integer part of [sqrt(v) * k] is the integer square root of the
    integer part of [v * k * k] (lemmas [int_sqrt_times_Ok] and
    [is_floor_sqrt_times_real] relate it to the real square root). *)
Definition int_sqrt_times (v : Q) (k : Z) : result Z :=
  if Qlt_le_dec v 0 then Raise ValueError
  else Ok (Z.sqrt (Qfloor (v * inject_Z k * inject_Z k))).

(** Configuration data as [yaml.safe_load] returns it: scalars, lists
    and dictionaries with string keys. *)
Inductive value : Type :=
| VNone
| VBool (b : bool)
| VInt (z : Z)
| VFloat (q : Q)
| VStr (s : string)
| VList (xs : list value)
| VDict (m : gmap string value).

(** [d.get(key, default)] on a configuration dictionary. *)
Definition dict_get (d : gmap string value) (key : string)
    (default : value) : value :=
  match d !! key with
  | Some v => v
  | None => default
  end.

(** A sample: [dict] from field names to numbers. *)
Abbreviation sample := (gmap string Qc).

(** [event[key]] raises [KeyError] when the key is absent. *)
Definition getitem (e : sample) (key : string) : result Q :=
  match e !! key with
  | Some v => Ok (this v)
  | None => Raise KeyError
  end.

(** [event.get(key, default)]. *)
Definition get (e : sample) (key : string) (default : Q) : Q :=
  match e !! key with
  | Some v => this v
  | None => default
  end.

(** A [for] loop whose body threads a state and may raise. *)
Fixpoint for_each {S A} (body : S → A → result S) (s : S) (xs : list A)
  : result S :=
  match xs with
  | [] => Ok s
  | x :: xs' => bind (body s x) (λ s', for_each body s' xs')
  end.

End Py.

Import Py.

#[global] Instance result_bind : MBind result := λ A B k m, Py.bind m k.
#[global] Instance result_ret : MRet result := λ A a, Ok a.

(** ** The mido messages the mapper builds *)

Module Mido.

(** A track is a list of messages; every message carries its delta time
    in the [time] attribute. *)
Inductive Message : Set :=
| program_change (channel program time : Z)
| control_change (channel control value time : Z)
| note_on (channel note velocity time : Z)
| note_off (channel note velocity time : Z)
| set_tempo (tempo time : Z).

Abbreviation MidiTrack := (list Message).

Record MidiFile : Set := {
  file_ticks_per_beat : Z;
  tracks : list MidiTrack
}.

Definition time (m : Message) : Z :=
  match m with
  | program_change _ _ t | control_change _ _ _ t
  | note_on _ _ _ t | note_off _ _ _ t | set_tempo _ t => t
  end.

Definition channel (m : Message) : option Z :=
  match m with
  | program_change c _ _ | control_change c _ _ _
  | note_on c _ _ _ | note_off c _ _ _ => Some c
  | set_tempo _ _ => None
  end.

(** A data byte is an integer in [0..127]; a channel is in [0..15]. *)
Definition data_byte (z : Z) : bool := (0 <=? z) && (z <=? 127).
Definition channel_ok (z : Z) : bool := (0 <=? z) && (z <=? 15).

(** Attributes the caller leaves out take mido's defaults:
    [channel=0], [velocity=64], [time=0]. *)
Definition default_channel : Z := 0.
Definition default_velocity : Z := 64.

(** [Message('program_change', program=p, channel=c, time=t)] *)
Definition new_program_change (p c t : Z) : result Message :=
  if data_byte p && channel_ok c then Ok (program_change c p t)
  else Raise ValueError.

(** [Message('control_change', control=c, value=v, time=t)] *)
Definition new_control_change (c v t : Z) : result Message :=
  if data_byte c && data_byte v
  then Ok (control_change default_channel c v t)
  else Raise ValueError.

(** [Message('note_on', note=n, velocity=v, time=t)] *)
Definition new_note_on (n v t : Z) : result Message :=
  if data_byte n && data_byte v then Ok (note_on default_channel n v t)
  else Raise ValueError.

(** [Message('note_off', note=n, time=t)] *)
Definition new_note_off (n t : Z) : result Message :=
  if data_byte n then Ok (note_off default_channel n default_velocity t)
  else Raise ValueError.

Definition is_note_on (m : Message) : bool :=
  match m with note_on _ _ _ _ => true | _ => false end.

End Mido.

Import Mido.

(** ** core/midi_mapper.py *)

Module MIDIMapper.

(** [self.ticks_per_beat], [self.tempo] and [self.channel_mapping]. *)
Definition ticks_per_beat : Z := 480.
Definition tempo : Z := 500000.
Definition channel_mapping : gmap string Z :=
  {[ "background" := 0; "medium" := 1; "details" := 2 ]}.

(** The settings each track builder reads from [self.config], after the
    [config.get(key, default)] lookups at the head of the builder. *)
Record background_config : Type := {
  bg_program : Z;
  bg_base_note : Z;
  bg_decay : Q
}.

Record medium_config : Type := {
  md_program : Z;
  md_scale : list Z;
  md_base_octave : Z;
  md_decay : Q;
  md_threshold : Q
}.

Record details_config : Type := {
  dt_program : Z;
  dt_note_range : list Q;
  dt_group_threshold : Q
}.

Record settings : Type := {
  background : background_config;
  medium : medium_config;
  details : details_config
}.

(** [_merge_configs]: "Deep merge of default and user configurations".
    [default.copy()] exists on dictionaries and lists only; storing
    under a string key into the copy of a list raises, so a list
    survives only an empty [user]; [user.items()] needs a dictionary.
    [None] stands for a raised [AttributeError] or [TypeError]. *)
Fixpoint _merge_configs (default user : value) {struct user}
  : option value :=
  match default, user with
  | VDict dm, VDict um =>
      VDict <$>
        map_fold
          (λ key v (acc : option (gmap string value)),
             result ← acc;
             match v, result !! key with
             | VDict _, Some rk =>
                 merged ← _merge_configs rk v;
                 Some (<[key:=merged]> result)
             | _, _ => Some (<[key:=v]> result)
             end)
          (Some dm) um
  | VList xs, VDict um =>
      if decide (size um = 0%nat) then Some (VList xs) else None
  | _, _ => None
  end.

(** [self.default_config] *)
Definition default_config : value :=
  VDict {[ "tracks" := VDict {[
    "background" := VDict {[
      "program" := VInt 52;
      "base_note" := VInt 36;
      "scale" := VList [VInt 0; VInt 3; VInt 7; VInt 10];
      "decay" := VInt 15000 ]};
    "medium" := VDict {[
      "program" := VInt 74;
      "scale" := VList [VInt 0; VInt 2; VInt 4; VInt 7; VInt 9];
      "velocity_curve" := VStr "linear" ]};
    "details" := VDict {[
      "program" := VInt 127;
      "note_range" := VList [VInt 84; VInt 96];
      "velocity_range" := VList [VInt 60; VInt 127] ]} ]} ]}.

(** [self.config] as [__init__] leaves it, for the loaded [user]
    configuration. *)
Definition init_config (user : value) : option value :=
  _merge_configs default_config user.

(** Typed views of configuration values: an [int] where mido wants a
    data byte, a number where the code computes, a list of those. A
    value of another shape is outside the fragment modelled here. *)
Definition as_int (v : value) : option Z :=
  match v with VInt z => Some z | _ => None end.

Definition as_number (v : value) : option Q :=
  match v with
  | VInt z => Some (inject_Z z)
  | VFloat q => Some q
  | _ => None
  end.

Definition as_list {A} (f : value → option A) (v : value)
  : option (list A) :=
  match v with VList xs => mapM f xs | _ => None end.

(** [self.config.get("tracks", {}).get(name, {})] *)
Definition track_settings (config : value) (name : string)
  : option (gmap string value) :=
  match config with
  | VDict c =>
      match dict_get c "tracks" (VDict ∅) with
      | VDict t =>
          match dict_get t name (VDict ∅) with
          | VDict s => Some s
          | _ => None
          end
      | _ => None
      end
  | _ => None
  end.

(** The [config.get(key, default)] lines at the head of each builder. *)
Definition read_background (config : value) : option background_config :=
  s ← track_settings config "background";
  program ← as_int (dict_get s "program" (VInt 52));
  base_note ← as_int (dict_get s "base_note" (VInt 36));
  decay ← as_number (dict_get s "decay" (VInt 15000));
  Some {| bg_program := program; bg_base_note := base_note;
          bg_decay := decay |}.

Definition read_medium (config : value) : option medium_config :=
  s ← track_settings config "medium";
  program ← as_int (dict_get s "program" (VInt 74));
  scale ← as_list as_int
    (dict_get s "scale" (VList [VInt 0; VInt 2; VInt 4; VInt 7; VInt 9]));
  base_octave ← as_int (dict_get s "base_octave" (VInt 4));
  decay ← as_number (dict_get s "decay" (VInt 500));
  threshold ← as_number (dict_get s "intensity_threshold" (VFloat 1));
  Some {| md_program := program; md_scale := scale;
          md_base_octave := base_octave; md_decay := decay;
          md_threshold := threshold |}.

Definition read_details (config : value) : option details_config :=
  s ← track_settings config "details";
  program ← as_int (dict_get s "program" (VInt 127));
  note_range ← as_list as_number
    (dict_get s "note_range" (VList [VInt 84; VInt 96]));
  group_threshold ← as_number (dict_get s "group_threshold" (VInt 50));
  Some {| dt_program := program; dt_note_range := note_range;
          dt_group_threshold := group_threshold |}.

Definition read_settings (config : value) : option settings :=
  bg ← read_background config;
  md ← read_medium config;
  dt ← read_details config;
  Some {| background := bg; medium := md; details := dt |}.

(** The settings in force when the user configuration is empty. *)
Definition default_settings : settings :=
  {| background := {| bg_program := 52; bg_base_note := 36;
                      bg_decay := 15000 |};
     medium := {| md_program := 74; md_scale := [0; 2; 4; 7; 9];
                  md_base_octave := 4; md_decay := 500;
                  md_threshold := 1 |};
     details := {| dt_program := 127; dt_note_range := [84; 96]%Q;
                   dt_group_threshold := 50 |} |}.

(** [ms_to_ticks]:
    [int((milliseconds * self.ticks_per_beat) / (self.tempo / 1000))] *)
Definition ms_to_ticks (milliseconds : Q) : Z :=
  py_int ((milliseconds * inject_Z ticks_per_beat)
          / (inject_Z tempo / 1000))%Q.

(** [_direction_to_note]: [note_index % len(scale)] raises
    [ZeroDivisionError] on an empty scale. *)
Definition _direction_to_note (angle : Q) (scale : list Z) (octave : Z)
  : result Z :=
  let angle := py_mod angle 360 in
  let len := Z.of_nat (length scale) in
  let note_index := py_int ((angle / 360) * inject_Z len)%Q in
  if decide (len = 0) then Raise ZeroDivisionError
  else match scale !! Z.to_nat (note_index mod len) with
       | Some degree => Ok (degree + octave * 12)
       | None => Raise IndexError
       end.

(** [_hue_to_note]:
    [int(note_range[0] + (hue / 180) * (note_range[1] - note_range[0]))] *)
Definition _hue_to_note (hue : Q) (note_range : list Q) : result Z :=
  match note_range !! 0%nat, note_range !! 1%nat with
  | Some lo, Some hi => Ok (py_int (lo + (hue / 180) * (hi - lo))%Q)
  | _, _ => Raise IndexError
  end.

(** One iteration of the loop of [_create_background_track]; the state
    is [(track, last_time, last_hue)]. *)
Definition background_step (base_note : Z) (decay : Q)
    (s : MidiTrack * Q * Q) (event : sample) : result (MidiTrack * Q * Q) :=
  let '(track, last_time, last_hue) := s in
  t ← getitem event "time";
  let delta_ticks := ms_to_ticks (t - last_time) in
  let hue_change := py_abs (get event "hue_shift" 0 - last_hue) in
  let mod_value := Z.min (py_int (hue_change * 127)) 127 in
  cc ← new_control_change 1 mod_value delta_ticks;
  velocity ← int_sqrt_times (get event "value_shift" 0) 127;
  on ← new_note_on base_note velocity 0;
  off ← new_note_off base_note (ms_to_ticks decay);
  Ok (track ++ [cc; on; off], t, get event "hue_shift" 0).

Definition _create_background_track (cfg : background_config)
    (data : list sample) : result MidiTrack :=
  pc ← new_program_change (bg_program cfg) 0 0;
  s ← for_each (background_step (bg_base_note cfg) (bg_decay cfg))
         ([pc], 0%Q, 0%Q) data;
  Ok (fst (fst s)).

(** One iteration of the loop of [_create_medium_track]; the state is
    [(track, last_time)]. *)
Definition medium_step (cfg : medium_config)
    (s : MidiTrack * Q) (event : sample) : result (MidiTrack * Q) :=
  let '(track, last_time) := s in
  if Qlt_le_dec (get event "intensity" 0) (md_threshold cfg) then Ok s
  else
    t ← getitem event "time";
    let delta_ticks := ms_to_ticks (t - last_time) in
    note ← _direction_to_note (get event "direction" 0)
              (md_scale cfg) (md_base_octave cfg);
    let velocity := py_int (py_min (get event "intensity" 0 * 127) 127) in
    on ← new_note_on note velocity delta_ticks;
    off ← new_note_off note (ms_to_ticks (md_decay cfg));
    Ok (track ++ [on; off], t).

Definition _create_medium_track (cfg : medium_config)
    (data : list sample) : result MidiTrack :=
  pc ← new_program_change (md_program cfg) 1 0;
  s ← for_each (medium_step cfg) ([pc], 0%Q) data;
  Ok (fst s).

(** [max(events, key=lambda x: x.get("size", 0))] on a non-empty list:
    the running maximum is replaced only by a strictly larger key. *)
Fixpoint max_by_size (best : sample) (rest : list sample) : sample :=
  match rest with
  | [] => best
  | e :: rest' =>
      if Qlt_le_dec (get best "size" 0) (get e "size" 0)
      then max_by_size e rest'
      else max_by_size best rest'
  end.

(** The body of the second loop of [_add_note_cluster]. *)
Definition secondary_step (main_event : sample) (note_range : list Q)
    (track : MidiTrack) (event : sample) : result MidiTrack :=
  if decide (event = main_event) then Ok track
  else
    note ← _hue_to_note (get event "hue" 0) note_range;
    on ← new_note_on note 90 0;
    off ← new_note_off note (ms_to_ticks 30);
    Ok (track ++ [on; off]).

(** [_add_note_cluster]. The delta of the main note is
    [ms_to_ticks(main_event["time"] - track[-1].time if track else 0)]:
    the conditional expression covers the whole difference. *)
Definition _add_note_cluster (track : MidiTrack) (events : list sample)
    (note_range : list Q) : result MidiTrack :=
  match events with
  | [] => Ok track
  | first :: rest =>
      let main_event := max_by_size first rest in
      main_note ← _hue_to_note (get main_event "hue" 0) note_range;
      gap ← match last track with
             | Some m =>
                 t ← getitem main_event "time";
                 Ok (t - inject_Z (time m))%Q
             | None => Ok 0%Q
             end;
      let delta_ticks := ms_to_ticks gap in
      on ← new_note_on main_note 127 delta_ticks;
      off ← new_note_off main_note (ms_to_ticks 50);
      for_each (secondary_step main_event note_range)
        (track ++ [on; off]) events
  end.

(** One iteration of the loop of [_create_details_track]; the state is
    [(track, current_group, last_time)]. *)
Definition details_step (cfg : details_config)
    (s : MidiTrack * list sample * Q) (event : sample)
  : result (MidiTrack * list sample * Q) :=
  let '(track, current_group, last_time) := s in
  flushed ← match last current_group with
             | Some prev =>
                 t ← getitem event "time";
                 tp ← getitem prev "time";
                 if Qlt_le_dec (dt_group_threshold cfg) (t - tp)
                 then
                   track' ← _add_note_cluster track current_group
                               (dt_note_range cfg);
                   Ok (track', [])
                 else Ok (track, current_group)
             | None => Ok (track, current_group)
             end;
  let '(track, current_group) := flushed in
  t ← getitem event "time";
  Ok (track, current_group ++ [event], t).

Definition _create_details_track (cfg : details_config)
    (data : list sample) : result MidiTrack :=
  pc ← new_program_change (dt_program cfg) 2 0;
  s ← for_each (details_step cfg) ([pc], [], 0%Q) data;
  let '(track, current_group, _) := s in
  match current_group with
  | [] => Ok track
  | _ :: _ => _add_note_cluster track current_group (dt_note_range cfg)
  end.

(** [analysis_data.get(name, [])] *)
Definition stream (analysis_data : gmap string (list sample))
    (name : string) : list sample :=
  default [] (analysis_data !! name).

(** [create_multitrack_midi], up to the call of [mid.save]: the file
    object that is handed to the writer. *)
Definition create_multitrack_midi (cfg : settings)
    (analysis_data : gmap string (list sample)) : result MidiFile :=
  let meta_track := [set_tempo tempo 0] in
  bg ← _create_background_track (background cfg)
          (stream analysis_data "background");
  md ← _create_medium_track (medium cfg)
          (stream analysis_data "medium");
  dt ← _create_details_track (details cfg)
          (stream analysis_data "details");
  Ok {| file_ticks_per_beat := ticks_per_beat;
        tracks := [meta_track; bg; md; dt] |}.

End MIDIMapper.

Import MIDIMapper.

(** ** Python's view of configuration values *)

Module Builtins.

(** [bool(v)], which [not v] and [v or default] test: [None], [False],
    zero, the empty string, list and dictionary are false. *)
Definition truthy (v : value) : bool :=
  match v with
  | VNone => false
  | VBool b => b
  | VInt z => negb (z =? 0)
  | VFloat q => negb (Qeq_bool q 0)
  | VStr s => match s with EmptyString => false | _ => true end
  | VList xs => match xs with [] => false | _ => true end
  | VDict m => negb (bool_decide (m = ∅))
  end.

(** The integer a value is when [isinstance(v, int)] holds: [bool] is a
    subclass of [int], with [True == 1] and [False == 0]. *)
Definition int_value (v : value) : option Z :=
  match v with
  | VInt z => Some z
  | VBool b => Some (if b then 1 else 0)
  | _ => None
  end.

(** [l[i]] for a constant index [i >= 0]. *)
Definition index (l : list Z) (i : nat) : result Z :=
  match l !! i with
  | Some z => Ok z
  | None => Raise IndexError
  end.

End Builtins.

Import Builtins.

(** ** core/config_manager.py *)

Module Config.

(** The fields of the [Config] dataclass. *)
Record t : Type := {
  roi : list Z;
  blur : Z;
  tracks : gmap string (gmap string value)
}.

(** A preset: [{"tracks": {track_name: {parameter: value}}}]. *)
Abbreviation preset := (gmap string (gmap string (gmap string value))).

Definition ints (l : list Z) : value := VList (VInt <$> l).

Definition cinematic : preset :=
  {[ "tracks" := {[
       "background" := {[ "program" := VInt 52;
                          "scale" := ints [0; 3; 7; 10] ]};
       "medium" := {[ "program" := VInt 74;
                      "scale" := ints [0; 2; 4; 7; 9] ]};
       "details" := {[ "program" := VInt 127 ]} ]} ]}.

Definition electronic : preset :=
  {[ "tracks" := {[
       "background" := {[ "program" := VInt 81;
                          "scale" := ints [0; 4; 7; 11] ]};
       "medium" := {[ "program" := VInt 86;
                      "scale" := ints [0; 3; 6; 9] ]};
       "details" := {[ "program" := VInt 119 ]} ]} ]}.

(** [get_preset]: [presets.get(name, presets["cinematic"])] *)
Definition get_preset (name : string) : preset :=
  if decide (name = "electronic") then electronic else cinematic.


(** The dataclass as [validate] fills it. The annotated field types are
    not enforced: [roi] is a list of four values of any kind, [blur] and
    [tracks] are what the file holds. *)
Record raw : Type := {
  raw_roi : list value;
  raw_blur : value;
  raw_tracks : value
}.

Definition default_roi : list value :=
  [VInt 0; VInt 0; VInt 1920; VInt 1080].

Definition default_tracks : value :=
  VDict {[ "background" := VDict {[ "program" := VInt 52 ]};
           "medium" := VDict {[ "program" := VInt 74 ]};
           "details" := VDict {[ "program" := VInt 127 ]} ]}.

(** [validate]. [None] stands for a raised exception: the [ValueError]
    for data that is not a dictionary, or the [AttributeError] of
    [global_config.get] when the entry under [global] is not one. *)
Definition validate (data : value) : option raw :=
  match data with
  | VDict d =>
      match dict_get d "global" (VDict ∅) with
      | VDict global_config =>
          let roi := dict_get global_config "roi" (VList default_roi) in
          let blur := dict_get global_config "blur" (VInt 5) in
          let roi :=
            match roi with
            | VList xs =>
                if decide (length xs = 4%nat) then xs else default_roi
            | _ => default_roi
            end in
          let tracks := dict_get d "tracks" (VDict ∅) in
          let tracks := if truthy tracks then tracks else default_tracks in
          Some {| raw_roi := roi; raw_blur := blur; raw_tracks := tracks |}
      | _ => None
      end
  | _ => None
  end.

(** [load], for the outcome of opening and parsing the file ([None] when
    either raised). Every exception, that of [validate] included, is
    answered with [validate({})]. *)
Definition load (contents : option value) : option raw :=
  match contents ≫= validate with
  | Some config => Some config
  | None => validate (VDict ∅)
  end.

End Config.

(** ** core/motion_detector.py: the configuration and the region of
    interest *)

Module MotionDetector.

(** The attributes [__init__] sets from the configuration file. The
    entries of [roi] pass [isinstance(x, int)]; they are kept as the
    integers they equal. *)
Record t : Type := {
  config : value;
  roi : list Z;
  blur_size : value;
  color_change_threshold : value
}.

(** [self.config.get("global", {}).get(key, default)]; [None] for the
    [AttributeError] of a value without [get]. *)
Definition global_get (config : value) (key : string) (default : value)
  : option value :=
  match config with
  | VDict c =>
      match dict_get c "global" (VDict ∅) with
      | VDict g => Some (dict_get g key default)
      | _ => None
      end
  | _ => None
  end.

(** [__init__], for the outcome of opening and parsing the file; [None]
    stands for a raised exception. A [roi] that is not a list either
    cannot be iterated, or yields no integers, or has not four of them. *)
Definition init (contents : option value) : option t :=
  data ← contents;
  let config := if truthy data then data else VDict ∅ in
  roi ← global_get config "roi" (VList Config.default_roi);
  blur_size ← global_get config "blur" (VInt 5);
  color_change_threshold ←
    global_get config "color_change_threshold" (VInt 15);
  entries ← match roi with VList xs => Some xs | _ => None end;
  roi ← mapM int_value entries;
  if decide (length roi = 4%nat)
  then Some {| config := config; roi := roi; blur_size := blur_size;
               color_change_threshold := color_change_threshold |}
  else None.

(** [_validate_roi]: the new value of [self.roi]. An exception raised
    on the way (a ROI with fewer than four entries) is answered with the
    full frame. *)
Definition _validate_roi (roi : list Z) (width height : Z) : list Z :=
  let attempt :=
    r0 ← index roi 0;
    r1 ← index roi 1;
    r2 ← index roi 2;
    r3 ← index roi 3;
    let v0 := Z.max 0 (Z.min r0 (width - 1)) in
    let v1 := Z.max 0 (Z.min r1 (height - 1)) in
    let v2 := Z.max 1 (Z.min r2 width) in
    let v3 := Z.max 1 (Z.min r3 height) in
    if decide (v2 <= v0 ∨ v3 <= v1)
    then Ok [0; 0; width; height]
    else Ok [v0; v1; v2; v3] in
  match attempt with
  | Ok valid_roi => valid_roi
  | Raise _ => [0; 0; width; height]
  end.

(** [[0, 0, self.roi[2]-self.roi[0], self.roi[3]-self.roi[1]]] *)
Definition full_roi (roi : list Z) : result (list Z) :=
  r2 ← index roi 2;
  r0 ← index roi 0;
  r3 ← index roi 3;
  r1 ← index roi 1;
  Ok [0; 0; r2 - r0; r3 - r1].

(** [_convert_to_roi_coordinates], for a zone given as a list of
    integers. The handler of the [try] evaluates the full ROI again. *)
Definition _convert_to_roi_coordinates (roi zone : list Z)
  : result (list Z) :=
  let attempt :=
    if bool_decide (zone = []) || negb (length zone =? 4)%nat
    then full_roi roi
    else
      z0 ← index zone 0; r0 ← index roi 0;
      z1 ← index zone 1; r1 ← index roi 1;
      z2 ← index zone 2; r2 ← index roi 2;
      z3 ← index zone 3; r3 ← index roi 3;
      let c0 := Z.max 0 (z0 - r0) in
      let c1 := Z.max 0 (z1 - r1) in
      let c2 := Z.min (z2 - r0) (r2 - r0) in
      let c3 := Z.min (z3 - r1) (r3 - r1) in
      if decide (c2 <= c0 ∨ c3 <= c1)
      then full_roi roi
      else Ok [c0; c1; c2; c3] in
  match attempt with
  | Ok rel_coords => Ok rel_coords
  | Raise _ => full_roi roi
  end.

End MotionDetector.

(** ** The specification's vocabulary

    Definitions that follow the words of the specification rather than
    the code; the theorems below compare the two. *)

Module Spec.


(** A medium sample is kept when its intensity is not strictly below
    the threshold. *)
Definition kept (threshold : Q) (e : sample) : Prop :=
  (threshold <= get e "intensity" 0)%Q.

#[global] Instance kept_dec threshold e : Decision (kept threshold e).
Proof.
  unfold kept.
  destruct (Qlt_le_dec (get e "intensity" 0) threshold) as [H|H].
  - right. apply Qlt_not_le, H.
  - left. exact H.
Defined.

(** Delta ticks of a sequence of onsets at the given times, each
    measured from the one before, the first from [previous]. *)
Fixpoint inter_onset_ticks (previous : Q) (times : list Q) : list Z :=
  match times with
  | [] => []
  | t :: times' =>
      ms_to_ticks (t - previous) :: inter_onset_ticks t times'
  end.



(** [z] is the integer part of [sqrt(v) * k]. *)
Definition is_floor_sqrt_times (v : Q) (k z : Z) : Prop :=
  0 <= z
  ∧ (inject_Z z * inject_Z z <= v * inject_Z k * inject_Z k)%Q
  ∧ (v * inject_Z k * inject_Z k < inject_Z (z + 1) * inject_Z (z + 1))%Q.

(** The three events of one background sample: a ControlChange on
    controller 1 whose value is the hue change times 127, cut to an
    integer and capped at 127, at the delta since the previous sample;
    a NoteOn at the base pitch, delta 0, with the integer part of
    [sqrt(value_shift) * 127] as velocity; a NoteOff at the same pitch
    [decay] later. *)
Definition background_events_of (base_note : Z) (decay : Q)
    (previous_time previous_hue : Q) (e : sample)
    (cc on off : Message) : Prop :=
  ∃ t velocity,
    getitem e "time" = Ok t
    ∧ cc = control_change 0 1
             (Z.min 127
                (Qfloor (Qabs (get e "hue_shift" 0 - previous_hue) * 127)))
             (ms_to_ticks (t - previous_time))
    ∧ is_floor_sqrt_times (get e "value_shift" 0) 127 velocity
    ∧ on = note_on 0 base_note velocity 0
    ∧ off = note_off 0 base_note 64 (ms_to_ticks decay).

(** The events of a background track after its ProgramChange: three
    per sample, in input order; the previous time and hue shift are
    those of the sample before. *)
Fixpoint background_track_body (base_note : Z) (decay : Q)
    (previous_time previous_hue : Q) (data : list sample)
    (msgs : list Message) : Prop :=
  match data, msgs with
  | [], [] => True
  | e :: data', cc :: on :: off :: msgs' =>
      background_events_of base_note decay previous_time previous_hue
        e cc on off
      ∧ background_track_body base_note decay
          (get e "time" 0) (get e "hue_shift" 0) data' msgs'
  | _, _ => False
  end.

(** Clusters of the details track: events accumulate in the current
    cluster; an incoming event whose time exceeds that of the last
    accumulated event by more than the threshold closes the cluster and
    starts the next; what remains at the end is the last cluster. *)
Fixpoint clusters_from (threshold : Q) (current data : list sample)
  : list (list sample) :=
  match data with
  | [] => match current with [] => [] | _ => [current] end
  | e :: data' =>
      match last current with
      | Some prev =>
          if Qlt_le_dec threshold (get e "time" 0 - get prev "time" 0)
          then current :: clusters_from threshold [e] data'
          else clusters_from threshold (current ++ [e]) data'
      | None => clusters_from threshold [e] data'
      end
  end.

Definition clusters (threshold : Q) (data : list sample)
  : list (list sample) :=
  clusters_from threshold [] data.


(** From the last event of a cluster to the first of the next the gap
    exceeds the threshold. *)
Definition gap_exceeds (threshold : Q) (c1 c2 : list sample) : Prop :=
  ∃ a b, last c1 = Some a ∧ head c2 = Some b
    ∧ (threshold < get b "time" 0 - get a "time" 0)%Q.

Fixpoint separated (threshold : Q) (cs : list (list sample)) : Prop :=
  match cs with
  | c1 :: (c2 :: _) as cs' =>
      gap_exceeds threshold c1 c2 ∧ separated threshold cs'
  | _ => True
  end.

(** The main event of a cluster: of largest size, the first such. *)
Definition is_main_event (events : list sample) (main : sample) : Prop :=
  ∃ pre post,
    events = pre ++ main :: post
    ∧ Forall (λ e, (get e "size" 0 < get main "size" 0)%Q) pre
    ∧ Forall (λ e, (get e "size" 0 <= get main "size" 0)%Q) post.

(** Secondary notes: for each event a NoteOn of velocity 90 at delta 0
    and its NoteOff 30 ms later. *)
Fixpoint secondary_notes (note_range : list Q) (es : list sample)
    (msgs : list Message) : Prop :=
  match es, msgs with
  | [], [] => True
  | e :: es', on :: off :: msgs' =>
      (∃ note,
         _hue_to_note (get e "hue" 0) note_range = Ok note
         ∧ on = note_on 0 note 90 0
         ∧ off = note_off 0 note 64 (ms_to_ticks 30))
      ∧ secondary_notes note_range es' msgs'
  | _, _ => False
  end.

(** The ranges of the data model, a missing field counting as 0. *)
Definition has_time (e : sample) : Prop := is_Some (e !! "time").

Definition background_sample_ok (e : sample) : Prop :=
  has_time e
  ∧ (0 <= get e "hue_shift" 0)%Q ∧ (get e "hue_shift" 0 <= 1)%Q
  ∧ (0 <= get e "value_shift" 0)%Q ∧ (get e "value_shift" 0 <= 1)%Q.

Definition motion_sample_ok (e : sample) : Prop :=
  has_time e
  ∧ (0 <= get e "intensity" 0)%Q
  ∧ (0 <= get e "direction" 0)%Q ∧ (get e "direction" 0 < 360)%Q.

Definition detail_event_ok (e : sample) : Prop :=
  has_time e ∧ (0 <= get e "hue" 0)%Q ∧ (get e "hue" 0 < 180)%Q.

Definition in_data_model (analysis_data : gmap string (list sample))
  : Prop :=
  Forall background_sample_ok (stream analysis_data "background")
  ∧ Forall motion_sample_ok (stream analysis_data "medium")
  ∧ Forall detail_event_ok (stream analysis_data "details").

(** Pitch, velocity and controller value are data bytes. *)
Definition in_midi_range (m : Message) : Prop :=
  match m with
  | note_on _ note velocity _ => 0 <= note <= 127 ∧ 0 <= velocity <= 127
  | control_change _ _ value _ => 0 <= value <= 127
  | _ => True
  end.

(** The fields a builder reads with [event.get(key, 0)], and a sample
    with 0 written into those it lacks. *)
Definition optional_fields : list string :=
  ["hue_shift"; "value_shift"; "intensity"; "direction"; "hue"; "size"].

Definition with_default (key : string) (e : sample) : sample :=
  match e !! key with
  | Some _ => e
  | None => <[key := Q2Qc 0]> e
  end.

Definition fill_defaults (e : sample) : sample :=
  foldr with_default e optional_fields.

(** The value found in a nested configuration along a path of keys. *)
Fixpoint lookup_path (path : list string) (v : value) : option value :=
  match path with
  | [] => Some v
  | key :: path' =>
      match v with
      | VDict m => m !! key ≫= lookup_path path'
      | _ => None
      end
  end.



(** The shapes of defaults and user agree: wherever both hold a value
    and the user's is a nested map, the default's is a nested map too
    (or a list, under an empty user map). *)
Definition copy_ok (dv : value) (um : gmap string value) : Prop :=
  match dv with
  | VDict _ => True
  | VList _ => um = ∅
  | _ => False
  end.

Definition shapes_agree (default user : value) : Prop :=
  (∃ um, user = VDict um)
  ∧ ∀ path um dv,
      lookup_path path user = Some (VDict um) →
      lookup_path path default = Some dv →
      copy_ok dv um.

End Spec.

Import Spec.

(** ** Concrete inputs *)

Module Examples.

Definition num (n : Z) (d : positive) : Qc := Q2Qc (n # d).

(** The input of the quick example at the end of [midi_mapper.py]. *)
Definition background_stream : list sample :=
  [ {[ "time" := num 0 1; "hue_shift" := num 15 100;
       "value_shift" := num 3 10 ]} ].

Definition motion_stream : list sample :=
  [ {[ "time" := num 500 1; "intensity" := num 25 10;
       "direction" := num 45 1 ]} ].

Definition details_stream : list sample :=
  [ {[ "time" := num 100 1; "hue" := num 90 1; "size" := num 50 1 ]};
    {[ "time" := num 120 1; "hue" := num 120 1; "size" := num 30 1 ]} ].

Definition sample_data : gmap string (list sample) :=
  {[ "background" := background_stream;
     "medium" := motion_stream;
     "details" := details_stream ]}.

(** A medium stream with a sample below the default threshold between
    two kept ones. *)
Definition medium_stream : list sample :=
  [ {[ "time" := num 500 1; "intensity" := num 25 10;
       "direction" := num 45 1 ]};
    {[ "time" := num 700 1; "intensity" := num 2 10;
       "direction" := num 90 1 ]};
    {[ "time" := num 1000 1; "intensity" := num 3 2;
       "direction" := num 200 1 ]} ].

Definition medium_stream_track : MidiTrack :=
  [ program_change 1 74 0;
    note_on 0 48 127 480; note_off 0 48 64 480;
    note_on 0 52 127 480; note_off 0 52 64 480 ].





(** Detail events at 0, 10, 20, 80 and 90 ms. *)
Definition at_time (t : Z) : sample := {[ "time" := num t 1 ]}.


Definition five_events_track : MidiTrack :=
  [ program_change 2 127 0;
    note_on 0 84 127 0; note_off 0 84 64 48;
    note_on 0 84 90 0; note_off 0 84 64 28;
    note_on 0 84 90 0; note_off 0 84 64 28;
    note_on 0 84 127 49; note_off 0 84 64 48;
    note_on 0 84 90 0; note_off 0 84 64 28 ].


(** Samples that lack the time field. *)
Definition untimed_background : sample :=
  {[ "hue_shift" := num 1 10; "value_shift" := num 2 10 ]}.

Definition untimed_motion : sample :=
  {[ "intensity" := num 2 1; "direction" := num 45 1 ]}.

Definition untimed_detail : sample :=
  {[ "hue" := num 90 1; "size" := num 50 1 ]}.

(** A stream whose samples carry a time and nothing else. *)
Definition bare_stream : list sample := [at_time 0; at_time 40].



End Examples.

(** ** Vocabulary of the proofs *)

(** What the loop of [_create_medium_track] appends for a list of kept
    samples, the first delta being measured from [last]. *)
Inductive medium_notes (cfg : medium_config)
  : Q → list sample → list Message → Prop :=
| medium_notes_nil last : medium_notes cfg last [] []
| medium_notes_cons last e t note rest msgs :
    getitem e "time" = Ok t →
    _direction_to_note (get e "direction" 0) (md_scale cfg)
      (md_base_octave cfg) = Ok note →
    0 <= note <= 127 →
    0 <= py_int (py_min (get e "intensity" 0 * 127) 127) <= 127 →
    medium_notes cfg t rest msgs →
    medium_notes cfg last (e :: rest)
      (note_on 0 note (py_int (py_min (get e "intensity" 0 * 127) 127))
         (ms_to_ticks (t - last))
       :: note_off 0 note 64 (ms_to_ticks (md_decay cfg)) :: msgs).

(** The state of the details loop, with 0 written into the missing
    fields of the events of the current group. *)
Definition fill_state (s : MidiTrack * list sample * Q)
  : MidiTrack * list sample * Q :=
  (s.1.1, fill_defaults <$> s.1.2, s.2).

(** Writing 0 into missing fields keeps different events different. *)
Definition fill_injective_on (l : list sample) : Prop :=
  ∀ e1 e2, e1 ∈ l → e2 ∈ l → fill_defaults e1 = fill_defaults e2 → e1 = e2.

(** The body of the loop of [_merge_configs], and what it leaves under
    one key: [None] when the nested merge raises. *)
Definition merge_item (key : string) (v : value)
    (acc : option (gmap string value)) : option (gmap string value) :=
  result ← acc;
  match v, result !! key with
  | VDict _, Some rk =>
      merged ← _merge_configs rk v;
      Some (<[key:=merged]> result)
  | _, _ => Some (<[key:=v]> result)
  end.

Definition merge_entry (dk uk : option value) : option (option value) :=
  match uk with
  | None => Some dk
  | Some (VDict m) =>
      match dk with
      | Some dv => Some <$> _merge_configs dv (VDict m)
      | None => Some (Some (VDict m))
      end
  | Some v => Some (Some v)
  end.

(** The size of a configuration value, the measure of the inductions on
    [_merge_configs]. *)
Fixpoint value_size (v : value) : nat :=
  match v with
  | VDict m => S (map_fold (λ _ x acc, value_size x + acc)%nat 0%nat m)
  | _ => 0%nat
  end.


(** The main note of a flushed cluster: a NoteOn of velocity 127. *)
Definition is_main_note (m : Message) : bool :=
  match m with note_on _ _ v _ => v =? 127 | _ => false end.

(** Samples in the order of their timestamps, as the analysis stage
    appends them. *)
Fixpoint time_ordered (l : list sample) : Prop :=
  match l with
  | [] => True
  | a :: l' =>
      Forall (λ b, (get a "time" 0 <= get b "time" 0)%Q) l'
      ∧ time_ordered l'
  end.

(** A stream as the analysis stage produces it: timestamps from 0 on,
    in order. *)
Definition well_timed (l : list sample) : Prop :=
  time_ordered l ∧ Forall (λ e, (0 <= get e "time" 0)%Q) l.

(** A rectangle [[x1, y1, x2, y2]] of positive width and height inside
    a [width] by [height] frame. *)
Definition in_frame (width height : Z) (r : list Z) : Prop :=
  ∃ x1 y1 x2 y2,
    r = [x1; y1; x2; y2]
    ∧ 0 <= x1 < x2 ∧ x2 <= width ∧ 0 <= y1 < y2 ∧ y2 <= height.

(** * Properties *)

(** ** Exceptions and the loop combinator *)

Section result_facts.
Context {A B : Type}.

Lemma bind_Ok (m : result A) (k : A → result B) (r : B) :
  m ≫= k = Ok r ↔ ∃ a, m = Ok a ∧ k a = Ok r.
Proof.
  destruct m as [a|e]; simpl.
  - split; [intros H; exists a; auto | intros (a' & [= <-] & H); exact H].
  - split; [discriminate | intros (a' & [=] & _)].
Qed.

Lemma for_each_cons (body : B → A → result B) (s : B) (x : A) xs :
  for_each body s (x :: xs)
  = body s x ≫= λ s', for_each body s' xs.
Proof. reflexivity. Qed.

Lemma for_each_cons_Ok (body : B → A → result B) (s s1 : B) (x : A) xs :
  body s x = Ok s1 → for_each body s (x :: xs) = for_each body s1 xs.
Proof. intros H. rewrite for_each_cons, H. reflexivity. Qed.

Lemma for_each_app (body : B → A → result B) (s : B) (xs ys : list A) :
  for_each body s (xs ++ ys)
  = for_each body s xs ≫= λ s', for_each body s' ys.
Proof.
  revert s. induction xs as [|x xs IH]; intros s; simpl; [reflexivity|].
  destruct (body s x) as [s'|e]; simpl; [apply IH | reflexivity].
Qed.
End result_facts.

(** Splits a hypothesis [x ← m; k = Ok r] into its successful steps. *)
Ltac inv_bind H :=
  repeat match type of H with
         | (_ ≫= _) = Ok _ =>
             let a := fresh "a" in
             let Ha := fresh "Ha" in
             apply bind_Ok in H as (a & Ha & H)
         end.

(** ** Numbers *)

Lemma py_int_nonneg (q : Q) : (0 <= q)%Q → py_int q = Qfloor q.
Proof.
  destruct q as [n d]. unfold Qle, py_int, Qfloor. simpl. intros Hn.
  apply Z.quot_div_nonneg; lia.
Qed.

Lemma py_int_comp (p q : Q) : (0 <= p)%Q → (p == q)%Q → py_int p = py_int q.
Proof.
  intros Hp Hpq. rewrite !py_int_nonneg; [|rewrite <- Hpq|]; try assumption.
  apply Qfloor_comp, Hpq.
Qed.

Lemma Qfloor_nonneg (q : Q) : (0 <= q)%Q → 0 <= Qfloor q.
Proof. intros H. change 0 with (Qfloor 0). apply Qfloor_resp_le, H. Qed.

Lemma Qfloor_lt_Z (q : Q) (n : Z) : (q < inject_Z n)%Q → Qfloor q < n.
Proof.
  intros H. apply Z.nle_gt. intros Hn.
  apply (Qlt_irrefl q). eapply Qlt_le_trans; [exact H|].
  eapply Qle_trans; [|apply Qfloor_le]. rewrite <- Zle_Qle. exact Hn.
Qed.

Lemma Qfloor_le_Z (q : Q) (n : Z) : (q <= inject_Z n)%Q → Qfloor q <= n.
Proof.
  intros H. rewrite <- (Qfloor_Z n). apply Qfloor_resp_le, H.
Qed.

Lemma Qfloor_ge_Z (q : Q) (n : Z) : (inject_Z n <= q)%Q → n <= Qfloor q.
Proof.
  intros H. rewrite <- (Qfloor_Z n). apply Qfloor_resp_le, H.
Qed.

(** ** C1: the time-to-ticks conversion *)




(** ** mido constructors *)

Lemma data_byte_spec (z : Z) : data_byte z = true ↔ 0 <= z <= 127.
Proof. unfold data_byte. rewrite andb_true_iff, !Z.leb_le. reflexivity. Qed.

Lemma new_program_change_Ok (p c t : Z) (m : Message) :
  new_program_change p c t = Ok m
  ↔ m = program_change c p t ∧ 0 <= p <= 127 ∧ 0 <= c <= 15.
Proof.
  unfold new_program_change, channel_ok.
  destruct (data_byte p) eqn:Hp; simpl.
  - apply data_byte_spec in Hp.
    destruct ((0 <=? c) && (c <=? 15)) eqn:Hc.
    + apply andb_true_iff in Hc as [?%Z.leb_le ?%Z.leb_le].
      split; [intros [= <-]; auto | intros (-> & _); reflexivity].
    + split; [discriminate|]. intros (_ & _ & H1 & H2).
      apply Z.leb_le in H1, H2. rewrite H1, H2 in Hc. discriminate.
  - split; [discriminate|]. intros (_ & H%data_byte_spec & _). congruence.
Qed.

Lemma new_control_change_Ok (c v t : Z) (m : Message) :
  new_control_change c v t = Ok m
  ↔ m = control_change 0 c v t ∧ 0 <= c <= 127 ∧ 0 <= v <= 127.
Proof.
  unfold new_control_change, default_channel.
  destruct (data_byte c) eqn:Hc, (data_byte v) eqn:Hv; simpl;
    rewrite <- !data_byte_spec, ?Hc, ?Hv;
    (split; [intros [= <-] || discriminate; auto | intros (-> & ? & ?)]);
    congruence.
Qed.

Lemma new_note_on_Ok (n v t : Z) (m : Message) :
  new_note_on n v t = Ok m
  ↔ m = note_on 0 n v t ∧ 0 <= n <= 127 ∧ 0 <= v <= 127.
Proof.
  unfold new_note_on, default_channel.
  destruct (data_byte n) eqn:Hn, (data_byte v) eqn:Hv; simpl;
    rewrite <- !data_byte_spec, ?Hn, ?Hv;
    (split; [intros [= <-] || discriminate; auto | intros (-> & ? & ?)]);
    congruence.
Qed.

Lemma new_note_off_Ok (n t : Z) (m : Message) :
  new_note_off n t = Ok m ↔ m = note_off 0 n 64 t ∧ 0 <= n <= 127.
Proof.
  unfold new_note_off, default_channel, default_velocity.
  destruct (data_byte n) eqn:Hn; simpl; rewrite <- !data_byte_spec, ?Hn;
    (split; [intros [= <-] || discriminate; auto | intros (-> & ?)]);
    congruence.
Qed.

(** ** The medium track *)

Lemma medium_step_skip cfg s e :
  ¬ kept (md_threshold cfg) e → medium_step cfg s e = Ok s.
Proof.
  intros Hk. destruct s as [track last]. unfold medium_step.
  destruct (Qlt_le_dec _ _) as [H|H]; [reflexivity | contradiction].
Qed.

Lemma medium_step_kept cfg track last e :
  kept (md_threshold cfg) e →
  medium_step cfg (track, last) e
  = (t ← getitem e "time";
     note ← _direction_to_note (get e "direction" 0)
               (md_scale cfg) (md_base_octave cfg);
     on ← new_note_on note
            (py_int (py_min (get e "intensity" 0 * 127) 127))
            (ms_to_ticks (t - last));
     off ← new_note_off note (ms_to_ticks (md_decay cfg));
     Ok (track ++ [on; off], t)).
Proof.
  intros Hk. unfold medium_step.
  destruct (Qlt_le_dec _ _) as [H|_]; [|reflexivity].
  exfalso. apply (Qlt_not_le _ _ H). exact Hk.
Qed.

Lemma medium_step_keep cfg track last e s' :
  kept (md_threshold cfg) e →
  medium_step cfg (track, last) e = Ok s' →
  ∃ t note,
    getitem e "time" = Ok t
    ∧ _direction_to_note (get e "direction" 0) (md_scale cfg)
        (md_base_octave cfg) = Ok note
    ∧ 0 <= note <= 127
    ∧ 0 <= py_int (py_min (get e "intensity" 0 * 127) 127) <= 127
    ∧ s' = (track
            ++ [note_on 0 note
                  (py_int (py_min (get e "intensity" 0 * 127) 127))
                  (ms_to_ticks (t - last));
                note_off 0 note 64 (ms_to_ticks (md_decay cfg))], t).
Proof.
  intros Hk. rewrite medium_step_kept by exact Hk.
  intros H. inv_bind H. injection H as <-.
  apply new_note_on_Ok in Ha1 as (-> & Hn & Hv).
  apply new_note_off_Ok in Ha2 as (-> & _).
  exists a, a0. auto.
Qed.

Lemma medium_loop_sound cfg data : ∀ track last s',
  for_each (medium_step cfg) (track, last) data = Ok s' →
  ∃ msgs, s'.1 = track ++ msgs
    ∧ medium_notes cfg last (filter (kept (md_threshold cfg)) data) msgs.
Proof.
  induction data as [|e data IH]; intros track last s' H.
  - injection H as <-. exists []. rewrite app_nil_r. split; [done|constructor].
  - rewrite for_each_cons in H.
    destruct (decide (kept (md_threshold cfg) e)) as [Hk|Hk].
    + rewrite filter_cons_True by exact Hk.
      apply bind_Ok in H as (s1 & Hs1 & H).
      apply medium_step_keep in Hs1 as (t & note & Ht & Hnote & Hn & Hv & ->);
        [|exact Hk].
      apply IH in H as (msgs & -> & Hmsgs).
      eexists. split; [rewrite <- app_assoc; reflexivity|].
      simpl. econstructor; eauto.
    + rewrite filter_cons_False by exact Hk.
      rewrite medium_step_skip in H by exact Hk. apply IH in H. exact H.
Qed.

Lemma medium_loop_complete cfg ks : ∀ track last msgs,
  Forall (kept (md_threshold cfg)) ks →
  medium_notes cfg last ks msgs →
  ∃ last', for_each (medium_step cfg) (track, last) ks
           = Ok (track ++ msgs, last').
Proof.
  induction ks as [|e ks IH]; intros track last msgs Hk Hm; inversion Hm; subst.
  - exists last. rewrite app_nil_r. reflexivity.
  - apply Forall_cons in Hk as [Hke Hk].
    destruct (IH (track ++ [note_on 0 note
                  (py_int (py_min (get e "intensity" 0 * 127) 127))
                  (ms_to_ticks (t - last));
                note_off 0 note 64 (ms_to_ticks (md_decay cfg))]) t msgs0
                Hk) as [last' Hl]; [assumption|].
    exists last'. rewrite for_each_cons, medium_step_kept by exact Hke.
    rewrite H1, H2. simpl.
    assert (Hon : new_note_on note
              (py_int (py_min (get e "intensity" 0 * 127) 127))
              (ms_to_ticks (t - last)) = Ok (note_on 0 note
              (py_int (py_min (get e "intensity" 0 * 127) 127))
              (ms_to_ticks (t - last)))) by (apply new_note_on_Ok; auto).
    assert (Hoff : new_note_off note (ms_to_ticks (md_decay cfg))
              = Ok (note_off 0 note 64 (ms_to_ticks (md_decay cfg))))
      by (apply new_note_off_Ok; auto).
    rewrite Hon. simpl. rewrite Hoff. simpl.
    rewrite Hl, <- app_assoc. reflexivity.
Qed.

Lemma medium_track_notes cfg data track :
  _create_medium_track cfg data = Ok track →
  ∃ msgs,
    track = program_change 1 (md_program cfg) 0 :: msgs
    ∧ medium_notes cfg 0 (filter (kept (md_threshold cfg)) data) msgs.
Proof.
  unfold _create_medium_track. intros H. inv_bind H. injection H as <-.
  apply new_program_change_Ok in Ha as (-> & _).
  apply medium_loop_sound in Ha0 as (msgs & -> & Hm).
  exists msgs. auto.
Qed.

Lemma medium_notes_onsets cfg last ks msgs :
  medium_notes cfg last ks msgs →
  ∃ times,
    Forall2 (λ e t, getitem e "time" = Ok t) ks times
    ∧ time <$> filter is_note_on msgs = inter_onset_ticks last times.
Proof.
  induction 1 as [last|last e t note rest msgs Ht Hnote Hn Hv _ (times & Hts & IH)].
  - exists []. split; [constructor | reflexivity].
  - exists (t :: times). split; [constructor; assumption|].
    rewrite filter_cons_True by exact I.
    rewrite filter_cons_False by (simpl; tauto).
    simpl. f_equal. exact IH.
Qed.

(** C2. In the medium track no NoteOn is emitted for a sample whose
    intensity is strictly below the threshold: the track is the one the
    kept samples alone produce, it has one NoteOn per kept sample, and
    the delta of each NoteOn is the tick conversion of the time since the
    previous kept sample, starting from 0. *)
Theorem medium_track_skips_filtered (cfg : medium_config)
    (data : list sample) (track : MidiTrack) :
  _create_medium_track cfg data = Ok track →
  let ks := filter (kept (md_threshold cfg)) data in
  _create_medium_track cfg ks = Ok track
  ∧ length (filter is_note_on track) = length ks
  ∧ ∃ times,
      Forall2 (λ e t, getitem e "time" = Ok t) ks times
      ∧ time <$> filter is_note_on track = inter_onset_ticks 0 times.
Proof.
  intros H ks. unfold ks. clear ks.
  destruct (medium_track_notes _ _ _ H) as (msgs & -> & Hm).
  destruct (medium_notes_onsets _ _ _ _ Hm) as (times & Hts & Hd).
  assert (Hf : filter is_note_on (program_change 1 (md_program cfg) 0 :: msgs)
               = filter is_note_on msgs)
    by (apply filter_cons_False; simpl; tauto).
  split; [|split].
  - assert (Hpc : new_program_change (md_program cfg) 1 0
                  = Ok (program_change 1 (md_program cfg) 0)).
    { unfold _create_medium_track in H. inv_bind H. rewrite Ha.
      apply new_program_change_Ok in Ha as (-> & _). reflexivity. }
    destruct (medium_loop_complete cfg (filter (kept (md_threshold cfg)) data)
                [program_change 1 (md_program cfg) 0] 0%Q msgs)
      as [last' Hl]; [|exact Hm|].
    + apply Forall_forall. intros e He.
      apply list_elem_of_filter in He as [He _]. exact He.
    + unfold _create_medium_track. rewrite Hpc. simpl. rewrite Hl.
      reflexivity.
  - rewrite Hf. apply Forall2_length in Hts. rewrite Hts.
    rewrite <- (length_fmap time), Hd.
    clear. generalize 0%Q. induction times; intros q; simpl; auto.
  - exists times. rewrite Hf. auto.
Qed.

Lemma medium_track_skips_filtered_witness :
  _create_medium_track (medium default_settings) Examples.medium_stream
  = Ok Examples.medium_stream_track
  ∧ let ks := filter (kept (md_threshold (medium default_settings)))
                Examples.medium_stream in
    _create_medium_track (medium default_settings) ks
    = Ok Examples.medium_stream_track
    ∧ length (filter is_note_on Examples.medium_stream_track) = length ks
    ∧ ∃ times,
        Forall2 (λ e t, getitem e "time" = Ok t) ks times
        ∧ time <$> filter is_note_on Examples.medium_stream_track
          = inter_onset_ticks 0 times.
Proof.
  split; [vm_compute; reflexivity|].
  apply (medium_track_skips_filtered (medium default_settings)
           Examples.medium_stream Examples.medium_stream_track).
  vm_compute. reflexivity.
Defined.

(** ** Pitch and velocity of a medium note *)

Lemma py_mod_range (x : Q) : (0 <= py_mod x 360)%Q ∧ (py_mod x 360 < 360)%Q.
Proof.
  unfold py_mod.
  pose proof (Qfloor_le (x / 360)) as Hlo.
  pose proof (Qlt_floor (x / 360)) as Hhi.
  rewrite inject_Z_plus in Hhi. change (inject_Z 1) with 1%Q in Hhi.
  set (f := inject_Z (Qfloor (x / 360))) in *.
  assert (E : (x / 360 == x * (1 # 360))%Q) by field.
  rewrite E in Hlo, Hhi. split; lra.
Qed.

Lemma py_int_nonpos (q : Q) : (q <= 0)%Q → py_int q <= 0.
Proof.
  destruct q as [n d]. unfold Qle, py_int. simpl. intros Hn.
  assert (H : 0 <= Z.quot (- n) (Z.pos d)) by (apply Z.quot_pos; lia).
  rewrite Z.quot_opp_l in H by lia. lia.
Qed.

Lemma py_int_inject_Z (z : Z) : py_int (inject_Z z) = z.
Proof. unfold py_int, inject_Z. simpl. apply Z.quot_1_r. Qed.

Lemma py_int_min_127 (x : Q) :
  py_int (py_min x 127) = Z.min 127 (py_int x).
Proof.
  unfold py_min. destruct (Qlt_le_dec 127 x) as [H|H].
  - change 127%Q with (inject_Z 127). rewrite py_int_inject_Z.
    rewrite (py_int_nonneg x) by lra.
    assert (127 <= Qfloor x); [|lia].
    apply Qfloor_ge_Z. apply Qlt_le_weak. exact H.
  - assert (py_int x <= 127); [|lia].
    destruct (Qlt_le_dec x 0) as [Hx|Hx].
    + assert (py_int x <= 0) by (apply py_int_nonpos; lra). lia.
    + rewrite py_int_nonneg by exact Hx. apply Qfloor_le_Z. exact H.
Qed.

Lemma direction_to_note_Ok (angle : Q) (scale : list Z) (octave note : Z) :
  _direction_to_note angle scale octave = Ok note →
  ∃ degree,
    scale !! Z.to_nat
      (Qfloor (py_mod angle 360 / 360 * inject_Z (Z.of_nat (length scale)))
       mod Z.of_nat (length scale)) = Some degree
    ∧ note = degree + octave * 12.
Proof.
  unfold _direction_to_note. destruct (decide _) as [|Hlen]; [discriminate|].
  destruct (py_mod_range angle) as [Hlo Hhi].
  rewrite py_int_nonneg.
  - destruct (scale !! _) as [degree|] eqn:Hd; [|discriminate].
    intros [= <-]. exists degree. auto.
  - apply Qmult_le_0_compat.
    + assert (E : (py_mod angle 360 / 360 == py_mod angle 360 * (1 # 360))%Q)
        by field.
      rewrite E. apply Qmult_le_0_compat; [exact Hlo | discriminate].
    + change 0%Q with (inject_Z 0). rewrite <- Zle_Qle. lia.
Qed.





(** ** The background track *)

Lemma int_sqrt_times_Ok (v : Q) (k z : Z) :
  int_sqrt_times v k = Ok z → is_floor_sqrt_times v k z.
Proof.
  unfold int_sqrt_times, is_floor_sqrt_times.
  destruct (Qlt_le_dec v 0) as [|Hv]; [discriminate|]. intros H.
  assert (Hz : z = Z.sqrt (Qfloor (v * inject_Z k * inject_Z k)))
    by congruence.
  clear H. revert Hz.
  set (x := (v * inject_Z k * inject_Z k)%Q). intros ->.
  assert (Hx : (0 <= x)%Q).
  { unfold x. rewrite <- Qmult_assoc, <- inject_Z_mult.
    apply Qmult_le_0_compat; [exact Hv|].
    change 0%Q with (inject_Z 0). rewrite <- Zle_Qle. nia. }
  pose proof (Qfloor_nonneg x Hx) as Hn.
  pose proof (Z.sqrt_spec (Qfloor x) Hn) as [Hlo Hhi].
  pose proof (Z.sqrt_nonneg (Qfloor x)) as Hs.
  set (s := Z.sqrt (Qfloor x)) in *. clearbody s. clearbody x.
  split; [exact Hs|]. split.
  - eapply Qle_trans; [|apply Qfloor_le].
    rewrite <- inject_Z_mult, <- Zle_Qle. exact Hlo.
  - eapply Qlt_le_trans; [apply Qlt_floor|].
    rewrite <- inject_Z_mult, <- Zle_Qle. lia.
Qed.

Lemma background_step_Ok base decay track last_time last_hue e s' :
  background_step base decay (track, last_time, last_hue) e = Ok s' →
  ∃ cc on off,
    background_events_of base decay last_time last_hue e cc on off
    ∧ s' = (track ++ [cc; on; off], get e "time" 0, get e "hue_shift" 0).
Proof.
  unfold background_step. intros H. inv_bind H. injection H as <-.
  apply new_control_change_Ok in Ha0 as (-> & _ & _).
  apply int_sqrt_times_Ok in Ha1.
  apply new_note_on_Ok in Ha2 as (-> & _ & _).
  apply new_note_off_Ok in Ha3 as (-> & _).
  assert (Ht : get e "time" 0 = a).
  { unfold getitem, get in *. destruct (e !! "time"); [|discriminate].
    injection Ha as <-. reflexivity. }
  do 3 eexists. split; cycle 1.
  - rewrite Ht. reflexivity.
  - exists a, a1. split; [exact Ha|]. split; [|auto].
    f_equal. rewrite Z.min_comm. f_equal. unfold py_abs.
    apply py_int_nonneg.
    apply Qmult_le_0_compat; [apply Qabs_nonneg | discriminate].
Qed.

Lemma background_loop_sound base decay data : ∀ track last_time last_hue s',
  for_each (background_step base decay) (track, last_time, last_hue) data
  = Ok s' →
  ∃ msgs, s'.1.1 = track ++ msgs
    ∧ background_track_body base decay last_time last_hue data msgs.
Proof.
  induction data as [|e data IH]; intros track last_time last_hue s' H.
  - injection H as <-. exists []. rewrite app_nil_r. split; [done|exact I].
  - rewrite for_each_cons in H. apply bind_Ok in H as (s1 & Hs1 & H).
    apply background_step_Ok in Hs1 as (cc & on & off & He & ->).
    apply IH in H as (msgs & -> & Hmsgs).
    exists (cc :: on :: off :: msgs). split.
    + rewrite <- app_assoc. reflexivity.
    + split; assumption.
Qed.

(** [is_floor_sqrt_times] against the real square root: [z] is the
    integer with [z <= sqrt(v) * k < z + 1]. *)
Lemma is_floor_sqrt_times_real (v : Q) (k z : Z) :
  0 <= k →
  is_floor_sqrt_times v k z →
  (IZR z <= sqrt (Q2R v) * IZR k < IZR z + 1)%R.
Proof.
  intros Hk (Hz & Hlo & Hhi).
  apply Qle_Rle in Hlo. apply Qlt_Rlt in Hhi.
  rewrite !Q2R_mult in Hlo, Hhi.
  assert (EZ : ∀ n, Q2R (inject_Z n) = IZR n).
  { intros n. unfold Q2R, inject_Z. simpl. rewrite Rinv_1. ring. }
  rewrite !EZ in Hlo, Hhi. rewrite plus_IZR in Hhi.
  assert (Hz' : (0 <= IZR z)%R) by (apply IZR_le; exact Hz).
  assert (Hk' : (0 <= IZR k)%R) by (apply IZR_le; exact Hk).
  destruct (Z.eq_dec k 0) as [->|Hk0].
  - rewrite !Rmult_0_r in *. split; [Lra.nra | Lra.lra].
  - assert (Hkpos : (0 < IZR k)%R) by (apply IZR_lt; lia).
    assert (Hv : (0 <= Q2R v)%R).
    { assert (0 <= Q2R v * (IZR k * IZR k))%R by Lra.nra.
      assert (0 < IZR k * IZR k)%R by Lra.nra.
      destruct (Rle_or_lt 0 (Q2R v)) as [|Hneg]; [assumption|].
      assert (Q2R v * (IZR k * IZR k) < 0)%R; [|Lra.lra].
      rewrite <- (Rmult_0_l (IZR k * IZR k)).
      apply Rmult_lt_compat_r; assumption. }
    assert (E : (sqrt (Q2R v) * IZR k
                 = sqrt (Q2R v * IZR k * IZR k))%R).
    { rewrite Rmult_assoc, sqrt_mult_alt by exact Hv.
      rewrite sqrt_square by exact Hk'. reflexivity. }
    rewrite E. split.
    + rewrite <- (sqrt_square (IZR z)) at 1 by exact Hz'.
      apply sqrt_le_1_alt. exact Hlo.
    + rewrite <- (sqrt_square (IZR z + 1)) by Lra.lra.
      apply sqrt_lt_1_alt. split; [Lra.nra | exact Hhi].
Qed.




(** ** The details track: the main event of a cluster *)

Lemma max_by_size_cases (rest : list sample) : ∀ best,
  let m := max_by_size best rest in
  (m = best ∧ Forall (λ e, (get e "size" 0 <= get best "size" 0)%Q) rest)
  ∨ (∃ pre post,
       rest = pre ++ m :: post
       ∧ (get best "size" 0 < get m "size" 0)%Q
       ∧ Forall (λ e, (get e "size" 0 < get m "size" 0)%Q) pre
       ∧ Forall (λ e, (get e "size" 0 <= get m "size" 0)%Q) post).
Proof.
  induction rest as [|e rest IH]; intros best; simpl.
  - left. split; [reflexivity | constructor].
  - destruct (Qlt_le_dec (get best "size" 0) (get e "size" 0)) as [Hlt|Hle].
    + right. destruct (IH e) as [[Hm Hall]|(pre & post & Hr & Hem & Hpre & Hpost)].
      * exists [], rest. rewrite Hm. simpl. repeat split; auto.
      * exists (e :: pre), post. rewrite Hr at 1. simpl.
        repeat split; auto.
        -- eapply Qlt_trans; eassumption.
    + destruct (IH best) as [[Hm Hall]|(pre & post & Hr & Hbm & Hpre & Hpost)].
      * left. split; [exact Hm | constructor; assumption].
      * right. exists (e :: pre), post. rewrite Hr at 1. simpl.
        repeat split; auto. constructor; [|exact Hpre].
        eapply Qle_lt_trans; eassumption.
Qed.

Lemma max_by_size_is_main (first : sample) (rest : list sample) :
  is_main_event (first :: rest) (max_by_size first rest).
Proof.
  destruct (max_by_size_cases rest first)
    as [[Hm Hall]|(pre & post & Hr & Hbm & Hpre & Hpost)].
  - exists [], rest. rewrite Hm. simpl. repeat split; auto.
  - exists (first :: pre), post. rewrite Hr at 1. simpl.
    repeat split; auto.
Qed.


(** ** The details track: flushing a cluster *)

Lemma secondary_loop_sound main nr events : ∀ track track',
  for_each (secondary_step main nr) track events = Ok track' →
  ∃ msgs, track' = track ++ msgs
    ∧ secondary_notes nr (filter (λ e, e ≠ main) events) msgs.
Proof.
  induction events as [|e events IH]; intros track track' H.
  - injection H as <-. exists []. rewrite app_nil_r. split; [done|exact I].
  - rewrite for_each_cons in H. apply bind_Ok in H as (t1 & Ht1 & H).
    apply IH in H as (msgs & -> & Hmsgs).
    unfold secondary_step in Ht1. destruct (decide (e = main)) as [->|Hne].
    + injection Ht1 as <-. rewrite filter_cons_False by tauto.
      exists msgs. auto.
    + inv_bind Ht1. injection Ht1 as <-.
      apply new_note_on_Ok in Ha0 as (-> & _).
      apply new_note_off_Ok in Ha1 as (-> & _).
      rewrite filter_cons_True by exact Hne.
      eexists. split; [rewrite <- app_assoc; reflexivity|].
      simpl. split; [|exact Hmsgs]. exists a. auto.
Qed.

Lemma add_note_cluster_Ok (track : MidiTrack) (events : list sample)
    (nr : list Q) (track' : MidiTrack) :
  events ≠ [] →
  _add_note_cluster track events nr = Ok track' →
  ∃ main main_note gap secondary,
    is_main_event events main
    ∧ _hue_to_note (get main "hue" 0) nr = Ok main_note
    ∧ match last track with
      | Some m =>
          ∃ t, getitem main "time" = Ok t ∧ gap = (t - inject_Z (time m))%Q
      | None => gap = 0%Q
      end
    ∧ track' = track
               ++ [note_on 0 main_note 127 (ms_to_ticks gap);
                   note_off 0 main_note 64 (ms_to_ticks 50)]
               ++ secondary
    ∧ secondary_notes nr (filter (λ e, e ≠ main) events) secondary.
Proof.
  destruct events as [|first rest]; [congruence|]. intros _.
  unfold _add_note_cluster. intros H. inv_bind H.
  apply new_note_on_Ok in Ha1 as (-> & _).
  apply new_note_off_Ok in Ha2 as (-> & _).
  apply secondary_loop_sound in H as (msgs & -> & Hmsgs).
  exists (max_by_size first rest), a, a0, msgs.
  split; [apply max_by_size_is_main|]. split; [exact Ha|].
  split; [|split; [rewrite <- app_assoc; reflexivity | exact Hmsgs]].
  destruct (last track) as [m|].
  - inv_bind Ha0. injection Ha0 as <-. exists a1. auto.
  - injection Ha0 as <-. reflexivity.
Qed.




(** ** The details track: clustering *)

Lemma clusters_from_concat thr data : ∀ cur,
  concat (clusters_from thr cur data) = cur ++ data.
Proof.
  induction data as [|e data IH]; intros cur; simpl.
  - destruct cur; simpl; rewrite ?app_nil_r; reflexivity.
  - destruct (last cur) as [prev|] eqn:Hl.
    + destruct (Qlt_le_dec _ _); simpl.
      * rewrite IH. reflexivity.
      * rewrite IH, <- app_assoc. reflexivity.
    + apply last_None in Hl as ->. rewrite IH. reflexivity.
Qed.

Lemma clusters_from_nonempty thr data : ∀ cur,
  Forall (λ c, c ≠ []) (clusters_from thr cur data).
Proof.
  induction data as [|e data IH]; intros cur; simpl.
  - destruct cur; constructor; [discriminate | constructor].
  - destruct (last cur) as [prev|] eqn:Hl; [|apply IH].
    destruct (Qlt_le_dec _ _); [|apply IH].
    constructor; [|apply IH]. intros ->. discriminate.
Qed.



Lemma clusters_from_head thr data : ∀ cur,
  cur ≠ [] →
  ∃ c cs, clusters_from thr cur data = c :: cs ∧ head c = head cur.
Proof.
  induction data as [|e data IH]; intros cur Hne; simpl.
  - destruct cur; [congruence|]. eauto.
  - destruct (last cur) as [prev|] eqn:Hl.
    + destruct (Qlt_le_dec _ _); [eauto|].
      destruct (IH (cur ++ [e])) as (c & cs & -> & Hh).
      * destruct cur; discriminate.
      * exists c, cs. split; [reflexivity|]. rewrite Hh.
        destruct cur; [congruence | reflexivity].
    + apply last_None in Hl. congruence.
Qed.

Lemma clusters_from_separated thr data : ∀ cur,
  separated thr (clusters_from thr cur data).
Proof.
  induction data as [|e data IH]; intros cur; simpl.
  - destruct cur; exact I.
  - destruct (last cur) as [prev|] eqn:Hl; [|apply IH].
    destruct (Qlt_le_dec _ _) as [Hgap|Hgap]; [|apply IH].
    destruct (clusters_from_head thr data [e]) as (c & cs & Hcs & Hh);
      [discriminate|].
    pose proof (IH [e]) as Hsep. rewrite Hcs in *.
    split; [|exact Hsep]. exists prev, e. auto.
Qed.

Lemma getitem_get (e : sample) (key : string) (v : Q) :
  getitem e key = Ok v → get e key 0 = v ∧ is_Some (e !! key).
Proof.
  unfold getitem, get. destruct (e !! key); [|discriminate].
  intros [= <-]. eauto.
Qed.

Lemma details_step_Ok cfg track cur lt e s' :
  details_step cfg (track, cur, lt) e = Ok s' →
  ∃ t, getitem e "time" = Ok t
    ∧ match last cur with
      | Some prev =>
          ∃ tp, getitem prev "time" = Ok tp
            ∧ if Qlt_le_dec (dt_group_threshold cfg) (t - tp)
              then ∃ track1,
                     _add_note_cluster track cur (dt_note_range cfg)
                     = Ok track1
                     ∧ s' = (track1, [e], t)
              else s' = (track, cur ++ [e], t)
      | None => s' = (track, cur ++ [e], t)
      end.
Proof.
  unfold details_step.
  destruct (getitem e "time") as [t|] eqn:Ht; cycle 1.
  { destruct (last cur); simpl; discriminate. }
  intros H. exists t. split; [reflexivity|].
  destruct (last cur) as [prev|]; simpl in H.
  - destruct (getitem prev "time") as [tp|]; simpl in H; [|discriminate].
    exists tp. split; [reflexivity|].
    destruct (Qlt_le_dec _ _); simpl in H.
    + destruct (_add_note_cluster _ _ _) as [track1|]; simpl in H;
        [|discriminate].
      exists track1. split; congruence.
    + congruence.
  - congruence.
Qed.

Lemma details_loop_sound cfg data : ∀ track cur lt s',
  for_each (details_step cfg) (track, cur, lt) data = Ok s' →
  Forall (λ e, is_Some (e !! "time")) data
  ∧ ∃ flushed,
      for_each (λ tr c, _add_note_cluster tr c (dt_note_range cfg))
        track flushed = Ok s'.1.1
      ∧ clusters_from (dt_group_threshold cfg) cur data
        = flushed ++ match s'.1.2 with [] => [] | c => [c] end.
Proof.
  induction data as [|e data IH]; intros track cur lt s' H.
  - injection H as <-. split; [constructor|]. exists []. simpl.
    split; [reflexivity|]. destruct cur; reflexivity.
  - rewrite for_each_cons in H. apply bind_Ok in H as (s1 & Hs1 & H).
    apply details_step_Ok in Hs1 as (t & Ht & Hs1).
    apply getitem_get in Ht as [Ht Hsome]. simpl.
    destruct (last cur) as [prev|] eqn:Hl.
    + destruct Hs1 as (tp & Htp & Hs1).
      apply getitem_get in Htp as [Htp _]. rewrite Ht, Htp.
      destruct (Qlt_le_dec _ _) as [Hgap|Hgap].
      * destruct Hs1 as (track1 & Hflush & ->).
        apply IH in H as (Hall & flushed & Hf & Hc).
        split; [constructor; assumption|].
        exists (cur :: flushed). split.
        -- rewrite for_each_cons, Hflush. exact Hf.
        -- rewrite Hc. reflexivity.
      * subst s1. apply IH in H as (Hall & flushed & Hf & Hc).
        split; [constructor; assumption|]. eauto.
    + subst s1. apply last_None in Hl as ->.
      apply IH in H as (Hall & flushed & Hf & Hc).
      split; [constructor; assumption|]. eauto.
Qed.

Lemma details_track_flushes cfg data track :
  _create_details_track cfg data = Ok track →
  Forall (λ e, is_Some (e !! "time")) data
  ∧ for_each (λ tr c, _add_note_cluster tr c (dt_note_range cfg))
      [program_change 2 (dt_program cfg) 0]
      (clusters (dt_group_threshold cfg) data) = Ok track.
Proof.
  unfold _create_details_track. intros H.
  apply bind_Ok in H as (pc & Hpc & H).
  apply new_program_change_Ok in Hpc as (-> & _).
  apply bind_Ok in H as ([[track1 cur] lt] & Hloop & H).
  apply details_loop_sound in Hloop as (Hall & flushed & Hf & Hc).
  split; [exact Hall|]. unfold clusters. rewrite Hc, for_each_app, Hf.
  simpl in *. destruct cur as [|e cur].
  - exact H.
  - rewrite for_each_cons, H. reflexivity.
Qed.



(** ** The assembled score *)

Lemma multitrack_order cfg analysis_data mid :
  create_multitrack_midi cfg analysis_data = Ok mid →
  ∃ bg md dt,
    _create_background_track (background cfg)
      (stream analysis_data "background") = Ok bg
    ∧ _create_medium_track (medium cfg) (stream analysis_data "medium")
      = Ok md
    ∧ _create_details_track (details cfg) (stream analysis_data "details")
      = Ok dt
    ∧ mid = {| file_ticks_per_beat := 480;
               tracks := [[set_tempo 500000 0]; bg; md; dt] |}.
Proof.
  unfold create_multitrack_midi. intros H. inv_bind H. injection H as <-.
  exists a, a0, a1. auto.
Qed.

(** On every input the notes of the medium track, that is all its
    messages after the ProgramChange on channel 1, are on channel 0. *)
Lemma medium_track_note_channels cfg data track :
  _create_medium_track cfg data = Ok track →
  ∃ msgs,
    track = program_change 1 (md_program cfg) 0 :: msgs
    ∧ Forall (λ m, channel m = Some 0) msgs.
Proof.
  intros H. destruct (medium_track_notes _ _ _ H) as (msgs & -> & Hm).
  exists msgs. split; [reflexivity|]. clear H.
  induction Hm as [|last e t note rest msgs _ _ _ _ _ IH]; [constructor|].
  constructor; [reflexivity|]. constructor; [reflexivity | exact IH].
Qed.

(** C9 on the input of the module's own quick example: the four tracks
    come in the order header, background, medium, details, and the
    ProgramChange of the medium track is on channel 1, the channel
    [channel_mapping] gives it; but its NoteOn and NoteOff are built
    without a channel and so are on channel 0, and likewise the notes of
    the details track. *)
Theorem notes_ignore_channel_mapping :
  create_multitrack_midi default_settings Examples.sample_data
  = Ok {| file_ticks_per_beat := 480;
          tracks :=
            [ [set_tempo 500000 0];
              [program_change 0 52 0; control_change 0 1 19 0;
               note_on 0 36 69 0; note_off 0 36 64 14400];
              [program_change 1 74 0; note_on 0 48 127 480;
               note_off 0 48 64 480];
              [program_change 2 127 0; note_on 0 90 127 96;
               note_off 0 90 64 48; note_on 0 92 90 0;
               note_off 0 92 64 28] ] |}
  ∧ channel_mapping !! "medium" = Some 1
  ∧ channel (note_on 0 48 127 480) = Some 0
  ∧ channel_mapping !! "details" = Some 2
  ∧ channel (note_on 0 90 127 96) = Some 0.
Proof. repeat split; vm_compute; reflexivity. Qed.

(** ** Totality on well-formed input *)

Lemma has_time_getitem (e : sample) :
  has_time e → getitem e "time" = Ok (get e "time" 0).
Proof. intros [t Ht]. unfold getitem, get. rewrite Ht. reflexivity. Qed.

Lemma mod_value_range (x : Q) :
  (0 <= x)%Q → 0 <= Z.min (py_int (x * 127)) 127 <= 127.
Proof.
  intros Hx. assert (0 <= py_int (x * 127)); [|lia].
  rewrite py_int_nonneg; [apply Qfloor_nonneg|];
    apply Qmult_le_0_compat; (exact Hx || discriminate).
Qed.

Lemma sqrt_velocity_range (v : Q) :
  (0 <= v)%Q → (v <= 1)%Q →
  ∃ z, int_sqrt_times v 127 = Ok z ∧ 0 <= z <= 127.
Proof.
  intros H0 H1. unfold int_sqrt_times.
  destruct (Qlt_le_dec v 0) as [H|_]; [exfalso; lra|].
  eexists. split; [reflexivity|]. split; [apply Z.sqrt_nonneg|].
  change 127 with (Z.sqrt 16129) at 3. apply Z.sqrt_le_mono.
  apply Qfloor_le_Z. change (inject_Z 127) with 127%Q.
  change (inject_Z 16129) with 16129%Q. lra.
Qed.

Lemma background_step_total base decay track lt lh e :
  0 <= base <= 127 →
  has_time e →
  (0 <= get e "value_shift" 0)%Q → (get e "value_shift" 0 <= 1)%Q →
  ∃ cc on off,
    background_step base decay (track, lt, lh) e
    = Ok (track ++ [cc; on; off], get e "time" 0, get e "hue_shift" 0)
    ∧ in_midi_range cc ∧ in_midi_range on ∧ in_midi_range off.
Proof.
  intros Hbase Ht Hv0 Hv1. unfold background_step.
  rewrite (has_time_getitem e Ht). simpl.
  pose proof (mod_value_range (py_abs (get e "hue_shift" 0 - lh))
                (Qabs_nonneg _)) as Hmod.
  destruct (sqrt_velocity_range _ Hv0 Hv1) as (vel & Hvel & Hrange).
  assert (Hctl : 0 <= 1 <= 127) by lia.
  rewrite (proj2 (new_control_change_Ok 1 _ _ _)
             (conj eq_refl (conj Hctl Hmod))). simpl.
  rewrite Hvel. simpl.
  rewrite (proj2 (new_note_on_Ok base vel 0 _)
             (conj eq_refl (conj Hbase Hrange))). simpl.
  rewrite (proj2 (new_note_off_Ok base _ _) (conj eq_refl Hbase)). simpl.
  do 3 eexists. split; [reflexivity|]. simpl. auto.
Qed.

Lemma background_loop_total base decay data :
  0 <= base <= 127 →
  Forall (λ e, has_time e ∧ (0 <= get e "value_shift" 0)%Q
               ∧ (get e "value_shift" 0 <= 1)%Q) data →
  ∀ track lt lh,
    Forall in_midi_range track →
    ∃ s', for_each (background_step base decay) (track, lt, lh) data = Ok s'
      ∧ Forall in_midi_range s'.1.1.
Proof.
  intros Hbase Hdata.
  induction Hdata as [|e data (Ht & Hv0 & Hv1) _ IH]; intros track lt lh Htr.
  - eexists. split; [reflexivity | exact Htr].
  - destruct (background_step_total base decay track lt lh e Hbase Ht Hv0 Hv1)
      as (cc & on & off & Hstep & Hcc & Hon & Hoff).
    rewrite for_each_cons, Hstep. simpl. apply IH.
    apply Forall_app. split; [exact Htr|]. repeat constructor; assumption.
Qed.

Lemma background_track_total cfg data :
  0 <= bg_program cfg <= 127 → 0 <= bg_base_note cfg <= 127 →
  Forall (λ e, has_time e ∧ (0 <= get e "value_shift" 0)%Q
               ∧ (get e "value_shift" 0 <= 1)%Q) data →
  ∃ track, _create_background_track cfg data = Ok track
    ∧ Forall in_midi_range track.
Proof.
  intros Hp Hb Hdata. unfold _create_background_track.
  assert (Hch : 0 <= 0 <= 15) by lia.
  rewrite (proj2 (new_program_change_Ok (bg_program cfg) 0 0 _)
             (conj eq_refl (conj Hp Hch))). simpl.
  destruct (background_loop_total (bg_base_note cfg) (bg_decay cfg) data
              Hb Hdata [program_change 0 (bg_program cfg) 0] 0%Q 0%Q)
    as (s' & Hs & Hvalid); [repeat constructor|].
  rewrite Hs. simpl. eauto.
Qed.

Lemma direction_to_note_total (angle : Q) (scale : list Z) (octave : Z) :
  scale ≠ [] →
  Forall (λ degree, 0 <= degree + octave * 12 <= 127) scale →
  ∃ note, _direction_to_note angle scale octave = Ok note
    ∧ 0 <= note <= 127.
Proof.
  intros Hne Hscale. unfold _direction_to_note.
  assert (Hlen : 0 < Z.of_nat (length scale))
    by (destruct scale; [congruence | simpl; lia]).
  destruct (decide _) as [|_]; [lia|].
  set (idx := py_int _).
  pose proof (Z.mod_pos_bound idx _ Hlen) as Hmod.
  destruct (lookup_lt_is_Some_2 scale
              (Z.to_nat (idx mod Z.of_nat (length scale))))
    as [degree Hd]; [lia|].
  rewrite Hd. exists (degree + octave * 12). split; [reflexivity|].
  eapply (proj1 (Forall_lookup _ _) Hscale). exact Hd.
Qed.

Lemma medium_velocity_range (intensity : Q) :
  (0 <= intensity)%Q →
  0 <= py_int (py_min (intensity * 127) 127) <= 127.
Proof.
  intros Hi. rewrite py_int_min_127.
  assert (0 <= py_int (intensity * 127)); [|lia].
  rewrite py_int_nonneg; [apply Qfloor_nonneg|];
    apply Qmult_le_0_compat; (exact Hi || discriminate).
Qed.

Lemma medium_step_total cfg track lt e :
  md_scale cfg ≠ [] →
  Forall (λ degree, 0 <= degree + md_base_octave cfg * 12 <= 127)
    (md_scale cfg) →
  (0 <= md_threshold cfg)%Q →
  has_time e →
  Forall in_midi_range track →
  ∃ s', medium_step cfg (track, lt) e = Ok s' ∧ Forall in_midi_range s'.1.
Proof.
  intros Hne Hscale Hthr Ht Htr.
  destruct (decide (kept (md_threshold cfg) e)) as [Hk|Hk].
  - rewrite medium_step_kept by exact Hk.
    rewrite (has_time_getitem e Ht). simpl.
    destruct (direction_to_note_total (get e "direction" 0) _ _ Hne Hscale)
      as (note & Hnote & Hrange).
    assert (Hvel := medium_velocity_range (get e "intensity" 0)
                      (Qle_trans _ _ _ Hthr Hk)).
    rewrite Hnote. simpl.
    rewrite (proj2 (new_note_on_Ok note _ _ _)
               (conj eq_refl (conj Hrange Hvel))). simpl.
    rewrite (proj2 (new_note_off_Ok note _ _) (conj eq_refl Hrange)). simpl.
    eexists. split; [reflexivity|]. simpl.
    apply Forall_app. split; [exact Htr|].
    constructor; [simpl; tauto|]. constructor; [exact I | constructor].
  - rewrite medium_step_skip by exact Hk. eauto.
Qed.

Lemma medium_track_total cfg data :
  0 <= md_program cfg <= 127 →
  md_scale cfg ≠ [] →
  Forall (λ degree, 0 <= degree + md_base_octave cfg * 12 <= 127)
    (md_scale cfg) →
  (0 <= md_threshold cfg)%Q →
  Forall has_time data →
  ∃ track, _create_medium_track cfg data = Ok track
    ∧ Forall in_midi_range track.
Proof.
  intros Hp Hne Hscale Hthr Hdata. unfold _create_medium_track.
  assert (Hch : 0 <= 1 <= 15) by lia.
  rewrite (proj2 (new_program_change_Ok (md_program cfg) 1 0 _)
             (conj eq_refl (conj Hp Hch))). simpl.
  assert (Hloop : ∀ track lt, Forall in_midi_range track →
            ∃ s', for_each (medium_step cfg) (track, lt) data = Ok s'
              ∧ Forall in_midi_range s'.1).
  { induction Hdata as [|e data Ht _ IH]; intros track lt Htr.
    - eexists. split; [reflexivity | exact Htr].
    - destruct (medium_step_total cfg track lt e Hne Hscale Hthr Ht Htr)
        as ([track1 lt1] & Hstep & Hvalid).
      rewrite for_each_cons, Hstep. simpl. apply IH. exact Hvalid. }
  destruct (Hloop [program_change 1 (md_program cfg) 0] 0%Q)
    as (s' & Hs & Hvalid); [repeat constructor|].
  rewrite Hs. simpl. eauto.
Qed.

Lemma hue_to_note_total (hue : Q) :
  (0 <= hue)%Q → (hue < 180)%Q →
  ∃ note, _hue_to_note hue [84; 96]%Q = Ok note ∧ 84 <= note < 96.
Proof.
  intros H0 H1. unfold _hue_to_note. simpl.
  eexists. split; [reflexivity|].
  assert (E : (84 + hue / 180 * (96 - 84) == 84 + hue * (1 # 15))%Q)
    by field.
  assert (Hnn : (0 <= 84 + hue / 180 * (96 - 84))%Q) by (rewrite E; lra).
  rewrite (py_int_comp _ _ Hnn E).
  rewrite py_int_nonneg by lra. split.
  - apply Qfloor_ge_Z. change (inject_Z 84) with 84%Q. lra.
  - apply Qfloor_lt_Z. change (inject_Z 96) with 96%Q. lra.
Qed.

Lemma secondary_loop_total main events :
  Forall detail_event_ok events →
  ∀ track,
    Forall in_midi_range track →
    ∃ track', for_each (secondary_step main [84; 96]%Q) track events
              = Ok track'
      ∧ Forall in_midi_range track'.
Proof.
  induction 1 as [|e events (_ & H0 & H1) _ IH]; intros track Htr.
  - eexists. split; [reflexivity | exact Htr].
  - assert (Hstep : ∃ track1,
              secondary_step main [84; 96]%Q track e = Ok track1
              ∧ Forall in_midi_range track1).
    { unfold secondary_step.
      destruct (decide (e = main)) as [_|_]; [eauto|].
      destruct (hue_to_note_total _ H0 H1) as (note & Hnote & Hrange).
      assert (Hn : 0 <= note <= 127) by lia.
      assert (Hv : 0 <= 90 <= 127) by lia.
      rewrite Hnote. simpl.
      rewrite (proj2 (new_note_on_Ok note 90 0 _)
                 (conj eq_refl (conj Hn Hv))). simpl.
      rewrite (proj2 (new_note_off_Ok note _ _) (conj eq_refl Hn)). simpl.
      eexists. split; [reflexivity|].
      apply Forall_app. split; [exact Htr|].
      constructor; [simpl; tauto|]. constructor; [exact I | constructor]. }
    destruct Hstep as (track1 & Hstep & Htr1).
    rewrite (for_each_cons_Ok _ _ _ _ _ Hstep). apply IH, Htr1.
Qed.

Lemma add_note_cluster_total track events :
  Forall detail_event_ok events →
  Forall in_midi_range track →
  ∃ track', _add_note_cluster track events [84; 96]%Q = Ok track'
    ∧ Forall in_midi_range track'.
Proof.
  intros Hev Htr. destruct events as [|first rest]; [simpl; eauto|].
  unfold _add_note_cluster.
  destruct (max_by_size_is_main first rest) as (pre & post & Hsplit & _).
  set (main := max_by_size first rest) in *.
  assert (Hmain : detail_event_ok main).
  { eapply (proj1 (Forall_forall _ _) Hev). rewrite Hsplit.
    apply elem_of_app. right. left. }
  destruct Hmain as (Ht & H0 & H1).
  destruct (hue_to_note_total _ H0 H1) as (note & Hnote & Hrange).
  assert (Hn : 0 <= note <= 127) by lia.
  assert (Hv : 0 <= 127 <= 127) by lia.
  rewrite Hnote. cbn [mbind result_bind bind].
  assert (Hgap : ∃ gap,
            match last track with
            | Some m =>
                t ← getitem main "time"; Ok (t - inject_Z (time m))%Q
            | None => Ok 0%Q
            end = Ok gap).
  { destruct (last track); [|eauto].
    rewrite (has_time_getitem main Ht). simpl. eauto. }
  destruct Hgap as [gap ->]. cbn [mbind result_bind bind].
  rewrite (proj2 (new_note_on_Ok note 127 _ _) (conj eq_refl (conj Hn Hv))).
  cbn [mbind result_bind bind].
  rewrite (proj2 (new_note_off_Ok note _ _) (conj eq_refl Hn)).
  cbn [mbind result_bind bind].
  apply secondary_loop_total; [exact Hev|].
  apply Forall_app. split; [exact Htr|].
  constructor; [simpl; tauto|]. constructor; [exact I | constructor].
Qed.

Lemma details_loop_total cfg data :
  dt_note_range cfg = [84; 96]%Q →
  Forall detail_event_ok data →
  ∀ track cur lt,
    Forall detail_event_ok cur →
    Forall in_midi_range track →
    ∃ s', for_each (details_step cfg) (track, cur, lt) data = Ok s'
      ∧ Forall detail_event_ok s'.1.2
      ∧ Forall in_midi_range s'.1.1.
Proof.
  intros Hnr. induction 1 as [|e data He _ IH]; intros track cur lt Hcur Htr.
  - eexists. split; [reflexivity|]. auto.
  - assert (Hstep : ∃ s1,
              details_step cfg (track, cur, lt) e = Ok s1
              ∧ Forall detail_event_ok s1.1.2
              ∧ Forall in_midi_range s1.1.1).
    { unfold details_step. pose proof He as (Ht & _).
      assert (Hsnoc : Forall detail_event_ok (cur ++ [e])).
      { apply Forall_app. split; [exact Hcur|].
        constructor; [exact He | constructor]. }
      destruct (last cur) as [prev|] eqn:Hl.
      - assert (Hprev : has_time prev).
        { apply last_Some_elem_of in Hl.
          apply (proj1 (Forall_forall _ _) Hcur) in Hl. apply Hl. }
        rewrite (has_time_getitem e Ht), (has_time_getitem prev Hprev).
        simpl. destruct (Qlt_le_dec _ _) as [Hgap|Hgap].
        + rewrite Hnr.
          destruct (add_note_cluster_total track cur Hcur Htr)
            as (track1 & -> & Htr1).
          simpl. eexists. split; [reflexivity|]. simpl.
          split; [constructor; [exact He | constructor] | exact Htr1].
        + simpl. eexists. split; [reflexivity|]. simpl. auto.
      - rewrite (has_time_getitem e Ht). simpl.
        eexists. split; [reflexivity|]. simpl. auto. }
    destruct Hstep as ([[track1 cur1] lt1] & Hstep & Hcur1 & Htr1).
    rewrite (for_each_cons_Ok _ _ _ _ _ Hstep). apply IH; assumption.
Qed.

Lemma details_track_total cfg data :
  0 <= dt_program cfg <= 127 →
  dt_note_range cfg = [84; 96]%Q →
  Forall detail_event_ok data →
  ∃ track, _create_details_track cfg data = Ok track
    ∧ Forall in_midi_range track.
Proof.
  intros Hp Hnr Hdata. unfold _create_details_track.
  assert (Hch : 0 <= 2 <= 15) by lia.
  rewrite (proj2 (new_program_change_Ok (dt_program cfg) 2 0 _)
             (conj eq_refl (conj Hp Hch))). simpl.
  destruct (details_loop_total cfg data Hnr Hdata
              [program_change 2 (dt_program cfg) 0] [] 0%Q)
    as ([[track1 cur] lt] & Hs & Hcur & Htr1);
    [constructor | repeat constructor|].
  rewrite Hs. simpl. rewrite Hnr. simpl in Hcur, Htr1.
  destruct cur as [|e cur]; [eauto|].
  apply add_note_cluster_total; assumption.
Qed.

(** ** C10: the default configuration on data-model input *)

Lemma default_settings_read :
  init_config (VDict ∅) ≫= read_settings = Some default_settings.
Proof. vm_compute. reflexivity. Qed.

(** C10. With the default track configurations, for every analysis input
    whose samples respect the ranges of the data model, all three track
    builders complete, so that the score is built, and every NoteOn has
    pitch and velocity in [[0,127]] and every ControlChange a value in
    [[0,127]]. *)
Theorem default_score_in_midi_range
    (analysis_data : gmap string (list sample)) :
  in_data_model analysis_data →
  init_config (VDict ∅) ≫= read_settings = Some default_settings
  ∧ ∃ mid,
      create_multitrack_midi default_settings analysis_data = Ok mid
      ∧ Forall (Forall in_midi_range) (tracks mid).
Proof.
  intros (Hbg & Hmd & Hdt). split; [exact default_settings_read|].
  destruct (background_track_total (background default_settings)
              (stream analysis_data "background"))
    as (bg & Ebg & Vbg); [simpl; lia | simpl; lia | |].
  { eapply Forall_impl; [exact Hbg|].
    intros e (Ht & _ & _ & H0 & H1). auto. }
  destruct (medium_track_total (medium default_settings)
              (stream analysis_data "medium"))
    as (md & Emd & Vmd); [simpl; lia | discriminate | | discriminate | |].
  { simpl. repeat constructor; lia. }
  { eapply Forall_impl; [exact Hmd|]. intros e (Ht & _). exact Ht. }
  destruct (details_track_total (details default_settings)
              (stream analysis_data "details"))
    as (dt & Edt & Vdt); [simpl; lia | reflexivity | exact Hdt|].
  unfold create_multitrack_midi. rewrite Ebg, Emd, Edt. simpl.
  eexists. split; [reflexivity|]. simpl.
  repeat (constructor; [assumption || (repeat constructor)|]). constructor.
Qed.

Lemma default_score_in_midi_range_witness :
  in_data_model Examples.sample_data
  ∧ init_config (VDict ∅) ≫= read_settings = Some default_settings
  ∧ ∃ mid,
      create_multitrack_midi default_settings Examples.sample_data = Ok mid
      ∧ Forall (Forall in_midi_range) (tracks mid).
Proof.
  assert (H : in_data_model Examples.sample_data).
  { repeat split; repeat constructor;
      vm_compute; try discriminate; try reflexivity; eauto. }
  split; [exact H|].
  apply (default_score_in_midi_range Examples.sample_data). exact H.
Defined.

(** ** C4: missing fields *)

Lemma get_with_default (key k : string) (e : sample) :
  get (with_default key e) k 0 = get e k 0.
Proof.
  unfold with_default. destruct (e !! key) eqn:He; [reflexivity|].
  unfold get. destruct (decide (key = k)) as [<-|Hne].
  - rewrite lookup_insert_eq, He. reflexivity.
  - rewrite lookup_insert_ne by exact Hne. reflexivity.
Qed.

Lemma lookup_with_default_ne (key k : string) (e : sample) :
  key ≠ k → with_default key e !! k = e !! k.
Proof.
  intros Hne. unfold with_default. destruct (e !! key); [reflexivity|].
  apply lookup_insert_ne, Hne.
Qed.

Lemma get_fill_defaults (e : sample) (k : string) :
  get (fill_defaults e) k 0 = get e k 0.
Proof.
  unfold fill_defaults. induction optional_fields as [|key l IH];
    [reflexivity|].
  simpl. rewrite get_with_default. exact IH.
Qed.

Lemma getitem_fill_defaults (e : sample) :
  getitem (fill_defaults e) "time" = getitem e "time".
Proof.
  unfold getitem, fill_defaults, optional_fields. simpl.
  rewrite !lookup_with_default_ne by discriminate. reflexivity.
Qed.

Lemma for_each_fmap_ext {S A} (body : S → A → result S) (f : A → A) xs :
  (∀ s x, body s (f x) = body s x) →
  ∀ s, for_each body s (f <$> xs) = for_each body s xs.
Proof.
  intros Hf. induction xs as [|x xs IH]; intros s; [reflexivity|].
  rewrite fmap_cons, !for_each_cons, Hf.
  destruct (body s x) as [s1|]; simpl; [apply IH | reflexivity].
Qed.

Lemma background_track_fill cfg data :
  _create_background_track cfg (fill_defaults <$> data)
  = _create_background_track cfg data.
Proof.
  unfold _create_background_track.
  destruct (new_program_change _ _ _) as [pc|]; simpl; [|reflexivity].
  rewrite for_each_fmap_ext; [reflexivity|].
  intros [[track lt] lh] e. unfold background_step.
  rewrite getitem_fill_defaults, !get_fill_defaults. reflexivity.
Qed.

Lemma medium_track_fill cfg data :
  _create_medium_track cfg (fill_defaults <$> data)
  = _create_medium_track cfg data.
Proof.
  unfold _create_medium_track.
  destruct (new_program_change _ _ _) as [pc|]; simpl; [|reflexivity].
  rewrite for_each_fmap_ext; [reflexivity|].
  intros [track lt] e. unfold medium_step.
  rewrite getitem_fill_defaults, !get_fill_defaults. reflexivity.
Qed.

Lemma max_by_size_fill rest : ∀ first,
  max_by_size (fill_defaults first) (fill_defaults <$> rest)
  = fill_defaults (max_by_size first rest).
Proof.
  induction rest as [|e rest IH]; intros first; [reflexivity|].
  rewrite fmap_cons. simpl. rewrite !get_fill_defaults.
  destruct (Qlt_le_dec _ _); apply IH.
Qed.

Lemma max_by_size_elem rest first : max_by_size first rest ∈ first :: rest.
Proof.
  destruct (max_by_size_is_main first rest) as (pre & post & -> & _).
  apply elem_of_app. right. left.
Qed.

Lemma secondary_loop_fill main nr events : ∀ track,
  (∀ e, e ∈ events → fill_defaults e = fill_defaults main → e = main) →
  for_each (secondary_step (fill_defaults main) nr) track
    (fill_defaults <$> events)
  = for_each (secondary_step main nr) track events.
Proof.
  induction events as [|e events IH]; intros track Hinj; [reflexivity|].
  rewrite fmap_cons, !for_each_cons.
  assert (Hstep : secondary_step (fill_defaults main) nr track
                    (fill_defaults e)
                  = secondary_step main nr track e).
  { unfold secondary_step. rewrite get_fill_defaults.
    destruct (decide (e = main)) as [->|Hne].
    - rewrite decide_True by reflexivity. reflexivity.
    - rewrite decide_False; [reflexivity|].
      intros Heq. apply Hne, Hinj; [left | exact Heq]. }
  rewrite Hstep. destruct (secondary_step main nr track e); simpl;
    [|reflexivity].
  apply IH. intros e' He'. apply Hinj. right. exact He'.
Qed.

Lemma add_note_cluster_fill track events nr :
  (∀ e1 e2, e1 ∈ events → e2 ∈ events →
     fill_defaults e1 = fill_defaults e2 → e1 = e2) →
  _add_note_cluster track (fill_defaults <$> events) nr
  = _add_note_cluster track events nr.
Proof.
  intros Hinj. destruct events as [|first rest]; [reflexivity|].
  rewrite fmap_cons. unfold _add_note_cluster.
  rewrite max_by_size_fill, get_fill_defaults, getitem_fill_defaults.
  change (fill_defaults first :: (fill_defaults <$> rest))
    with (fill_defaults <$> first :: rest).
  assert (Hloop : ∀ tr,
            for_each (secondary_step (fill_defaults (max_by_size first rest))
                        nr) tr (fill_defaults <$> first :: rest)
            = for_each (secondary_step (max_by_size first rest) nr) tr
                (first :: rest)).
  { intros tr. apply secondary_loop_fill.
    intros e He. apply Hinj; [exact He | apply max_by_size_elem]. }
  destruct (_hue_to_note _ _) as [note|]; simpl; [|reflexivity].
  destruct (match last track with Some _ => _ | None => _ end) as [gap|];
    simpl; [|reflexivity].
  destruct (new_note_on _ _ _) as [on|]; simpl; [|reflexivity].
  destruct (new_note_off _ _) as [off|]; simpl; [|reflexivity].
  apply Hloop.
Qed.

Lemma details_step_fill cfg track cur lt e :
  (∀ e1 e2, e1 ∈ cur → e2 ∈ cur →
     fill_defaults e1 = fill_defaults e2 → e1 = e2) →
  details_step cfg (track, fill_defaults <$> cur, lt) (fill_defaults e)
  = match details_step cfg (track, cur, lt) e with
    | Ok s => Ok (fill_state s)
    | Raise x => Raise x
    end.
Proof.
  intros Hinj. unfold details_step.
  rewrite fmap_last, getitem_fill_defaults.
  destruct (last cur) as [prev|]; simpl.
  - rewrite getitem_fill_defaults.
    destruct (getitem e "time") as [t|]; simpl; [|reflexivity].
    destruct (getitem prev "time") as [tp|]; simpl; [|reflexivity].
    destruct (Qlt_le_dec _ _); simpl.
    + rewrite add_note_cluster_fill by exact Hinj.
      destruct (_add_note_cluster track cur (dt_note_range cfg)); reflexivity.
    + unfold fill_state. simpl. rewrite fmap_app. reflexivity.
  - destruct (getitem e "time") as [t|]; simpl; [|reflexivity].
    unfold fill_state. simpl. rewrite fmap_app. reflexivity.
Qed.

Lemma fill_injective_on_subseteq (l l' : list sample) :
  l' ⊆ l → fill_injective_on l → fill_injective_on l'.
Proof. intros Hsub Hinj e1 e2 H1 H2. apply Hinj; apply Hsub; assumption. Qed.

Lemma details_loop_group cfg data track cur lt s' :
  for_each (details_step cfg) (track, cur, lt) data = Ok s' →
  s'.1.2 ⊆ cur ++ data.
Proof.
  intros H. apply details_loop_sound in H as (_ & flushed & _ & Hc).
  rewrite <- (clusters_from_concat (dt_group_threshold cfg) data cur), Hc.
  rewrite concat_app. intros e He. apply elem_of_app. right.
  destruct (s'.1.2); [inversion He|]. simpl. rewrite app_nil_r. exact He.
Qed.

Lemma details_loop_fill cfg data : ∀ track cur lt,
  fill_injective_on (cur ++ data) →
  for_each (details_step cfg) (track, fill_defaults <$> cur, lt)
    (fill_defaults <$> data)
  = match for_each (details_step cfg) (track, cur, lt) data with
    | Ok s => Ok (fill_state s)
    | Raise x => Raise x
    end.
Proof.
  induction data as [|e data IH]; intros track cur lt Hinj; [reflexivity|].
  rewrite fmap_cons, !for_each_cons, details_step_fill; cycle 1.
  { intros e1 e2 H1 H2. apply Hinj; apply elem_of_app; left; assumption. }
  destruct (details_step cfg (track, cur, lt) e) as [[[t1 c1] l1]|] eqn:Hstep;
    simpl; [|reflexivity].
  apply IH.
  assert (Hsub : c1 ⊆ cur ++ [e]).
  { apply (details_loop_group cfg [e] track cur lt (t1, c1, l1)).
    rewrite for_each_cons, Hstep. reflexivity. }
  eapply fill_injective_on_subseteq; [|exact Hinj].
  intros x Hx. apply elem_of_app in Hx as [Hx|Hx].
  - apply Hsub in Hx. apply elem_of_app in Hx as [Hx|Hx].
    + apply elem_of_app. left. exact Hx.
    + apply elem_of_app. right. apply list_elem_of_singleton in Hx as ->.
      left.
  - apply elem_of_app. right. right. exact Hx.
Qed.

Lemma details_track_fill cfg data :
  fill_injective_on data →
  _create_details_track cfg (fill_defaults <$> data)
  = _create_details_track cfg data.
Proof.
  intros Hinj. unfold _create_details_track.
  destruct (new_program_change _ _ _) as [pc|]; simpl; [|reflexivity].
  pose proof (details_loop_fill cfg data [pc] [] 0%Q Hinj) as Hloop.
  rewrite fmap_nil in Hloop. rewrite Hloop.
  destruct (for_each (details_step cfg) ([pc], [], 0%Q) data)
    as [[[t1 c1] l1]|] eqn:Hs; simpl; [|reflexivity].
  assert (Hflush : _add_note_cluster t1 (fill_defaults <$> c1)
                     (dt_note_range cfg)
                   = _add_note_cluster t1 c1 (dt_note_range cfg)).
  { apply add_note_cluster_fill.
    eapply fill_injective_on_subseteq; [|exact Hinj].
    apply (details_loop_group _ _ _ _ _ _ Hs). }
  destruct c1 as [|e c1]; [reflexivity | exact Hflush].
Qed.

(** Without the proviso on the details track the equation fails: an
    event that lacks its hue and one that carries hue 0 are different
    events, both played, but equal once 0 is written in. *)
Example fill_may_identify_events :
  let with_hue : sample :=
    {[ "time" := Examples.num 1 1; "size" := Examples.num 5 1;
       "hue" := Examples.num 0 1 ]} in
  let without_hue : sample :=
    {[ "time" := Examples.num 1 1; "size" := Examples.num 5 1 ]} in
  _create_details_track (details default_settings) [with_hue; without_hue]
  = Ok [program_change 2 127 0; note_on 0 84 127 0; note_off 0 84 64 48;
        note_on 0 84 90 0; note_off 0 84 64 28]
  ∧ _create_details_track (details default_settings)
      (fill_defaults <$> [with_hue; without_hue])
    = Ok [program_change 2 127 0; note_on 0 84 127 0; note_off 0 84 64 48].
Proof. split; vm_compute; reflexivity. Qed.

(** C4, as the code has it. A field among [hue_shift], [value_shift],
    [intensity], [direction], [hue] and [size] that a sample lacks is read
    as 0: each builder produces for the samples what it produces for the
    same samples with 0 written into the missing fields (on the details
    track provided this does not make two different events equal); and,
    with the default configuration, when every sample has a time and the
    value shift and hue, where present, are in their ranges, the three
    builders complete however many of those fields are missing. *)
Theorem missing_fields_read_as_zero (data : list sample) :
  Forall has_time data →
  (∀ cfg, _create_background_track cfg (fill_defaults <$> data)
          = _create_background_track cfg data)
  ∧ (∀ cfg, _create_medium_track cfg (fill_defaults <$> data)
            = _create_medium_track cfg data)
  ∧ (∀ cfg, fill_injective_on data →
            _create_details_track cfg (fill_defaults <$> data)
            = _create_details_track cfg data)
  ∧ (Forall (λ e, (0 <= get e "value_shift" 0)%Q
                  ∧ (get e "value_shift" 0 <= 1)%Q) data →
     is_ok (_create_background_track (background default_settings) data))
  ∧ is_ok (_create_medium_track (medium default_settings) data)
  ∧ (Forall (λ e, (0 <= get e "hue" 0)%Q ∧ (get e "hue" 0 < 180)%Q) data →
     is_ok (_create_details_track (details default_settings) data)).
Proof.
  intros Htime.
  split; [intros cfg; apply background_track_fill|].
  split; [intros cfg; apply medium_track_fill|].
  split; [intros cfg; apply details_track_fill|].
  split; [|split].
  - intros Hrange.
    destruct (background_track_total (background default_settings) data)
      as (track & Htrack & _); [simpl; lia | simpl; lia | | exists track; auto].
    apply Forall_forall. intros e He.
    split; [exact (proj1 (Forall_forall _ _) Htime e He)|].
    exact (proj1 (Forall_forall _ _) Hrange e He).
  - destruct (medium_track_total (medium default_settings) data)
      as (track & Htrack & _);
      [simpl; lia | discriminate | | discriminate | exact Htime
      | exists track; auto].
    simpl. repeat constructor; lia.
  - intros Hrange.
    destruct (details_track_total (details default_settings) data)
      as (track & Htrack & _); [simpl; lia | reflexivity | | exists track; auto].
    apply Forall_forall. intros e He.
    split; [exact (proj1 (Forall_forall _ _) Htime e He)|].
    exact (proj1 (Forall_forall _ _) Hrange e He).
Qed.

Lemma missing_fields_read_as_zero_witness :
  Forall has_time Examples.bare_stream
  ∧ (∀ cfg, _create_background_track cfg
              (fill_defaults <$> Examples.bare_stream)
            = _create_background_track cfg Examples.bare_stream)
  ∧ (∀ cfg, _create_medium_track cfg (fill_defaults <$> Examples.bare_stream)
            = _create_medium_track cfg Examples.bare_stream)
  ∧ (∀ cfg, fill_injective_on Examples.bare_stream →
            _create_details_track cfg
              (fill_defaults <$> Examples.bare_stream)
            = _create_details_track cfg Examples.bare_stream)
  ∧ (Forall (λ e, (0 <= get e "value_shift" 0)%Q
                  ∧ (get e "value_shift" 0 <= 1)%Q) Examples.bare_stream →
     is_ok (_create_background_track (background default_settings)
              Examples.bare_stream))
  ∧ is_ok (_create_medium_track (medium default_settings)
             Examples.bare_stream)
  ∧ (Forall (λ e, (0 <= get e "hue" 0)%Q ∧ (get e "hue" 0 < 180)%Q)
       Examples.bare_stream →
     is_ok (_create_details_track (details default_settings)
              Examples.bare_stream)).
Proof.
  assert (H : Forall has_time Examples.bare_stream).
  { repeat constructor; vm_compute; eauto. }
  split; [exact H|].
  apply (missing_fields_read_as_zero Examples.bare_stream). exact H.
Defined.

(** C4 as the specification words it, with [time] among the
    defaulted fields: a sample without a time makes each builder raise
    [KeyError]; no track is completed. *)
Lemma sample_without_time_aborts :
  _create_background_track (background default_settings)
    [Examples.untimed_background] = Raise KeyError
  ∧ _create_medium_track (medium default_settings)
      [Examples.untimed_motion] = Raise KeyError
  ∧ _create_details_track (details default_settings)
      [Examples.untimed_detail] = Raise KeyError.
Proof. repeat split; vm_compute; reflexivity. Qed.

(** ** C8: the deep merge of configurations *)

Lemma merge_configs_dicts (dm um : gmap string value) :
  _merge_configs (VDict dm) (VDict um)
  = VDict <$> map_fold merge_item (Some dm) um.
Proof. reflexivity. Qed.

Lemma merge_fold_spec (dm um : gmap string value) :
  match map_fold merge_item (Some dm) um with
  | Some rm => ∀ k, merge_entry (dm !! k) (um !! k) = Some (rm !! k)
  | None => ∃ k, merge_entry (dm !! k) (um !! k) = None
  end.
Proof.
  apply (map_fold_weak_ind
           (λ acc m,
              match acc with
              | Some rm => ∀ k, merge_entry (dm !! k) (m !! k) = Some (rm !! k)
              | None => ∃ k, merge_entry (dm !! k) (m !! k) = None
              end)); clear um.
  - intros k. rewrite lookup_empty. reflexivity.
  - intros i x m [rm|] Hi IH.
    + assert (Hrm : rm !! i = dm !! i).
      { specialize (IH i). rewrite Hi in IH. simpl in IH. congruence. }
      assert (Hother : ∀ k, i ≠ k →
                merge_entry (dm !! k) (<[i:=x]> m !! k) = Some (rm !! k)).
      { intros k Hne. rewrite lookup_insert_ne by exact Hne. apply IH. }
      assert (Hplain : ∀ y,
                merge_entry (dm !! i) (Some x) = Some (Some y) →
                ∀ k, merge_entry (dm !! k) (<[i:=x]> m !! k)
                     = Some (<[i:=y]> rm !! k)).
      { intros y Hy k. destruct (decide (i = k)) as [<-|Hne].
        - rewrite !lookup_insert_eq. exact Hy.
        - rewrite (lookup_insert_ne rm) by exact Hne. apply Hother, Hne. }
      unfold merge_item. simpl. rewrite Hrm.
      destruct x as [| | | | | |xm]; try (apply Hplain; reflexivity).
      destruct (dm !! i) as [dk|] eqn:Hdk; [|apply Hplain; reflexivity].
      destruct (_merge_configs dk (VDict xm)) as [merged|] eqn:Hm; simpl.
      * apply Hplain. unfold merge_entry. rewrite Hm. reflexivity.
      * exists i. rewrite lookup_insert_eq, Hdk. unfold merge_entry.
        rewrite Hm. reflexivity.
    + destruct IH as [k Hk]. exists k.
      destruct (decide (i = k)) as [<-|Hne].
      * rewrite Hi in Hk. discriminate.
      * rewrite lookup_insert_ne by exact Hne. exact Hk.
Qed.

Lemma merge_configs_Some (d u r : value) :
  _merge_configs d u = Some r →
  ∃ um, u = VDict um
    ∧ ((∃ xs, d = VList xs ∧ um = ∅ ∧ r = d)
       ∨ (∃ dm rm, d = VDict dm ∧ r = VDict rm
            ∧ ∀ k, merge_entry (dm !! k) (um !! k) = Some (rm !! k))).
Proof.
  destruct u as [| | | | | |um]; try (destruct d; discriminate).
  intros H. exists um. split; [reflexivity|].
  destruct d as [| | | | |xs|dm]; try discriminate.
  - left. simpl in H. destruct (decide (size um = 0%nat)) as [Hs|];
      [|discriminate].
    exists xs. apply map_size_empty_inv in Hs. split; [reflexivity|].
    split; congruence.
  - right. rewrite merge_configs_dicts in H.
    pose proof (merge_fold_spec dm um) as Hspec.
    destruct (map_fold merge_item (Some dm) um) as [rm|]; [|discriminate].
    injection H as <-. eauto.
Qed.

Lemma merge_configs_dicts_Some (dm um rm : gmap string value) :
  (∀ k, merge_entry (dm !! k) (um !! k) = Some (rm !! k)) →
  _merge_configs (VDict dm) (VDict um) = Some (VDict rm).
Proof.
  intros Hrm. rewrite merge_configs_dicts.
  pose proof (merge_fold_spec dm um) as Hspec.
  destruct (map_fold merge_item (Some dm) um) as [rm'|].
  - simpl. do 2 f_equal. apply map_eq. intros k.
    specialize (Hspec k). rewrite Hrm in Hspec. congruence.
  - destruct Hspec as [k Hk]. rewrite Hrm in Hk. discriminate.
Qed.

Lemma value_size_lookup (m : gmap string value) (k : string) (v : value) :
  m !! k = Some v → (value_size v < value_size (VDict m))%nat.
Proof.
  intros Hk. simpl.
  rewrite (map_fold_delete_L _ _ k v m); [lia | | exact Hk].
  intros. lia.
Qed.







Lemma merge_total_bounded (n : nat) : ∀ u,
  (value_size u < n)%nat →
  ∀ d, shapes_agree d u → is_Some (_merge_configs d u).
Proof.
  induction n as [|n IH]; intros u Hn d ([um ->] & Hshape); [lia|].
  pose proof (Hshape [] um d eq_refl eq_refl) as Hd.
  destruct d as [| | | | |xs|dm]; simpl in Hd; try contradiction.
  - subst um. eexists. reflexivity.
  - rewrite merge_configs_dicts.
    pose proof (merge_fold_spec dm um) as Hspec.
    destruct (map_fold merge_item (Some dm) um) as [rm|]; [eexists; reflexivity|].
    destruct Hspec as [k Hk]. exfalso.
    destruct (um !! k) as [uk|] eqn:Huk; [|discriminate].
    destruct uk as [| | | | | |m]; try discriminate.
    unfold merge_entry in Hk. destruct (dm !! k) as [dv|] eqn:Hdv;
      [|discriminate].
    destruct (IH (VDict m)) with (d := dv) as [rk Hrk].
    + apply value_size_lookup in Huk. lia.
    + split; [eauto|]. intros path um' dv' Hu' Hd'.
      apply (Hshape (k :: path) um' dv'); simpl.
      * rewrite Huk. exact Hu'.
      * rewrite Hdv. exact Hd'.
    + rewrite Hrk in Hk. discriminate.
Qed.

Lemma merge_shapes_agree path : ∀ d u r um dv,
  _merge_configs d u = Some r →
  lookup_path path u = Some (VDict um) →
  lookup_path path d = Some dv →
  copy_ok dv um.
Proof.
  induction path as [|k path IH]; intros d u r um dv Hm Hu Hd.
  - injection Hu as ->. injection Hd as ->.
    apply merge_configs_Some in Hm
      as (um' & [= <-] & [(xs & -> & -> & _)|(dm & rm & -> & _)]);
      simpl; auto.
  - apply merge_configs_Some in Hm
      as (um0 & -> & [(xs & -> & _)|(dm & rm & -> & -> & Hspec)]);
      [simpl in Hd; discriminate|].
    simpl in *. specialize (Hspec k).
    destruct (um0 !! k) as [uk|]; [|discriminate].
    destruct (dm !! k) as [dk|]; [|discriminate]. simpl in Hu, Hd.
    destruct uk as [| | | | | |m];
      try (destruct path; discriminate).
    unfold merge_entry in Hspec.
    destruct (_merge_configs dk (VDict m)) as [rk|] eqn:Hrk; [|discriminate].
    eapply IH; eassumption.
Qed.

Lemma merge_completes_iff (d u : value) :
  is_Some (_merge_configs d u) ↔ shapes_agree d u.
Proof.
  split.
  - intros [r Hr]. split.
    + apply merge_configs_Some in Hr as (um & -> & _). eauto.
    + intros path um dv. eapply merge_shapes_agree. exact Hr.
  - apply (merge_total_bounded (S (value_size u))). lia.
Qed.

(** ** Presets *)






(** * Further properties of the code *)

(** ** [ms_to_ticks] beyond the non-negative case *)

Lemma py_int_opp (q : Q) : py_int (- q) = - py_int q.
Proof.
  destruct q as [n d]. unfold py_int, Qopp. simpl.
  apply Z.quot_opp_l. discriminate.
Qed.

Lemma py_int_Qeq (p q : Q) : (p == q)%Q → py_int p = py_int q.
Proof.
  intros Hpq. destruct (Qlt_le_dec p 0) as [Hp|Hp].
  - pose proof (py_int_opp p) as Ep. pose proof (py_int_opp q) as Eq.
    assert (py_int (- p) = py_int (- q)); [|lia].
    apply py_int_comp; [lra | rewrite Hpq; reflexivity].
  - apply py_int_comp; assumption.
Qed.

Lemma py_int_mono (p q : Q) : (p <= q)%Q → py_int p <= py_int q.
Proof.
  intros Hpq. destruct (Qlt_le_dec p 0) as [Hp|Hp].
  - destruct (Qlt_le_dec q 0) as [Hq|Hq].
    + pose proof (py_int_opp p) as Ep. pose proof (py_int_opp q) as Eq.
      rewrite !py_int_nonneg in Ep, Eq by lra.
      assert (Qfloor (- q) <= Qfloor (- p)); [|lia].
      apply Qfloor_resp_le. lra.
    + assert (py_int p <= 0) by (apply py_int_nonpos; lra).
      assert (0 <= py_int q); [|lia].
      rewrite py_int_nonneg by exact Hq. apply Qfloor_nonneg, Hq.
  - rewrite !py_int_nonneg by lra. apply Qfloor_resp_le, Hpq.
Qed.

Lemma ms_to_ticks_scaled (m : Q) : ms_to_ticks m = py_int (m * (24 # 25)).
Proof.
  unfold ms_to_ticks, ticks_per_beat, tempo. apply py_int_Qeq. field.
Qed.


(** X2. The conversion is monotone: a longer gap never gets fewer ticks. *)
Theorem ms_to_ticks_monotone (a b : Q) :
  (a <= b)%Q → ms_to_ticks a <= ms_to_ticks b.
Proof.
  intros Hab. rewrite !ms_to_ticks_scaled. apply py_int_mono.
  apply Qmult_le_compat_r; [exact Hab | discriminate].
Qed.

Lemma ms_to_ticks_monotone_witness :
  (10 <= 1000)%Q ∧ ms_to_ticks 10 <= ms_to_ticks 1000.
Proof.
  split; [discriminate|]. apply (ms_to_ticks_monotone 10 1000). discriminate.
Defined.




(** ** [_direction_to_note] *)

(** X4. On an empty scale the lookup raises [ZeroDivisionError]; on any other
    scale it returns, for every angle, a degree of the scale raised by
    [octave * 12], and never an [IndexError]. *)
Theorem direction_to_note_picks_degree (angle : Q) (scale : list Z)
    (octave : Z) :
  (scale = [] →
   _direction_to_note angle scale octave = Raise ZeroDivisionError)
  ∧ (scale ≠ [] →
     ∃ degree, degree ∈ scale
       ∧ _direction_to_note angle scale octave = Ok (degree + octave * 12)).
Proof.
  split.
  - intros ->. reflexivity.
  - intros Hne. unfold _direction_to_note.
    assert (Hlen : 0 < Z.of_nat (length scale))
      by (destruct scale; [congruence | simpl; lia]).
    destruct (decide _) as [|_]; [lia|].
    set (idx := py_int _).
    pose proof (Z.mod_pos_bound idx _ Hlen) as Hmod.
    destruct (lookup_lt_is_Some_2 scale
                (Z.to_nat (idx mod Z.of_nat (length scale))))
      as [degree Hd]; [lia|].
    rewrite Hd. exists degree. split; [|reflexivity].
    eapply list_elem_of_lookup_2. exact Hd.
Qed.

Lemma direction_to_note_picks_degree_witness :
  ([0; 2; 4; 7; 9] = [] →
   _direction_to_note 45 [0; 2; 4; 7; 9] 4 = Raise ZeroDivisionError)
  ∧ ([0; 2; 4; 7; 9] ≠ [] →
     ∃ degree, degree ∈ [0; 2; 4; 7; 9]
       ∧ _direction_to_note 45 [0; 2; 4; 7; 9] 4 = Ok (degree + 4 * 12)).
Proof. apply (direction_to_note_picks_degree 45 [0; 2; 4; 7; 9] 4). Defined.







(** ** [_hue_to_note] *)

Lemma hue_to_note_value (hue lo hi : Q) :
  _hue_to_note hue [lo; hi] = Ok (py_int (lo + hue / 180 * (hi - lo))).
Proof. reflexivity. Qed.

(** X7. Over an integer note range [[lo, hi]] with [lo <= hi], a hue in
    [[0, 180]] is mapped into the range, hue 0 to [lo] and hue 180 to
    [hi], and a larger hue never to a lower note. *)
Theorem hue_to_note_in_range (lo hi : Z) (hue hue' : Q) :
  lo <= hi →
  (0 <= hue)%Q → (hue <= hue')%Q → (hue' <= 180)%Q →
  ∃ note note',
    _hue_to_note hue [inject_Z lo; inject_Z hi] = Ok note
    ∧ _hue_to_note hue' [inject_Z lo; inject_Z hi] = Ok note'
    ∧ lo <= note ∧ note <= note' ∧ note' <= hi
    ∧ _hue_to_note 0 [inject_Z lo; inject_Z hi] = Ok lo
    ∧ _hue_to_note 180 [inject_Z lo; inject_Z hi] = Ok hi.
Proof.
  intros Hlh H0 Hh H180. rewrite !hue_to_note_value.
  do 2 eexists. split; [reflexivity|]. split; [reflexivity|].
  assert (Hc : (0 <= inject_Z hi - inject_Z lo)%Q).
  { rewrite Zle_Qle in Hlh. lra. }
  set (c := (inject_Z hi - inject_Z lo)%Q) in *.
  assert (Hscale : ∀ h, (h / 180 * c == h * (c * (1 # 180)))%Q)
    by (intros h; field).
  assert (Hc' : (0 <= c * (1 # 180))%Q) by lra.
  assert (Hmono : ∀ h h', (h <= h')%Q →
            (h * (c * (1 # 180)) <= h' * (c * (1 # 180)))%Q)
    by (intros h h' Hhh; apply Qmult_le_compat_r; assumption).
  assert (E0 : (inject_Z lo + 0 / 180 * c == inject_Z lo)%Q) by field.
  assert (E180 : (inject_Z lo + 180 / 180 * c == inject_Z hi)%Q)
    by (unfold c; field).
  assert (H1 : py_int (inject_Z lo) <= py_int (inject_Z lo + hue / 180 * c)).
  { apply py_int_mono. rewrite Hscale.
    pose proof (Hmono 0%Q hue H0). lra. }
  assert (H2 : py_int (inject_Z lo + hue / 180 * c)
               <= py_int (inject_Z lo + hue' / 180 * c)).
  { apply py_int_mono. rewrite !Hscale. pose proof (Hmono hue hue' Hh). lra. }
  assert (H3 : py_int (inject_Z lo + hue' / 180 * c) <= py_int (inject_Z hi)).
  { apply py_int_mono. rewrite Hscale.
    pose proof (Hmono hue' 180%Q H180). unfold c in *. lra. }
  rewrite py_int_inject_Z in H1, H3.
  split; [exact H1|]. split; [exact H2|]. split; [exact H3|]. split.
  - rewrite (py_int_Qeq _ _ E0). rewrite py_int_inject_Z. reflexivity.
  - rewrite (py_int_Qeq _ _ E180). rewrite py_int_inject_Z. reflexivity.
Qed.

Lemma hue_to_note_in_range_witness :
  ∃ note note',
    _hue_to_note 90 [inject_Z 84; inject_Z 96] = Ok note
    ∧ _hue_to_note 120 [inject_Z 84; inject_Z 96] = Ok note'
    ∧ 84 <= note ∧ note <= note' ∧ note' <= 96
    ∧ _hue_to_note 0 [inject_Z 84; inject_Z 96] = Ok 84
    ∧ _hue_to_note 180 [inject_Z 84; inject_Z 96] = Ok 96.
Proof.
  apply (hue_to_note_in_range 84 96 90 120);
    vm_compute; discriminate.
Defined.


(** ** More on the medium track *)

(** X9. When every sample is below the threshold the medium track holds the
    ProgramChange and nothing else, whatever the samples carry: no other
    field of a filtered sample is read, not even its time. *)
Theorem medium_track_silent (cfg : medium_config) (data : list sample) :
  0 <= md_program cfg <= 127 →
  Forall (λ e, ¬ kept (md_threshold cfg) e) data →
  _create_medium_track cfg data = Ok [program_change 1 (md_program cfg) 0].
Proof.
  intros Hp Hdata. unfold _create_medium_track.
  assert (Hch : 0 <= 1 <= 15) by lia.
  rewrite (proj2 (new_program_change_Ok (md_program cfg) 1 0 _)
             (conj eq_refl (conj Hp Hch))).
  cbn [mbind result_bind bind].
  assert (Hloop : ∀ s, for_each (medium_step cfg) s data = Ok s).
  { induction Hdata as [|e data He _ IH]; intros s; [reflexivity|].
    rewrite (for_each_cons_Ok _ _ s); [apply IH|].
    apply medium_step_skip, He. }
  rewrite Hloop. reflexivity.
Qed.

Lemma medium_track_silent_witness :
  _create_medium_track (medium default_settings)
    [Examples.untimed_background; ∅]
  = Ok [program_change 1 (md_program (medium default_settings)) 0].
Proof.
  apply (medium_track_silent (medium default_settings)
           [Examples.untimed_background; ∅]).
  - simpl. lia.
  - repeat constructor; vm_compute; intros H; apply H; reflexivity.
Defined.

Lemma medium_notes_kept_values cfg last ks msgs :
  medium_notes cfg last ks msgs →
  Forall (kept (md_threshold cfg)) ks →
  ∀ c n v t, note_on c n v t ∈ msgs →
    (∃ degree, degree ∈ md_scale cfg ∧ n = degree + md_base_octave cfg * 12)
    ∧ ∃ e, e ∈ ks ∧ kept (md_threshold cfg) e
        ∧ v = Z.min 127 (py_int (get e "intensity" 0 * 127)).
Proof.
  induction 1 as [last|last e t note rest msgs Ht Hnote Hn Hv _ IH];
    intros Hk c n v t' Hin.
  - inversion Hin.
  - apply Forall_cons in Hk as [Hke Hk].
    apply elem_of_cons in Hin as [Heq|Hin].
    + injection Heq as -> -> -> ->.
      apply direction_to_note_Ok in Hnote as (degree & Hd & ->).
      split.
      * exists degree. split; [|reflexivity].
        eapply list_elem_of_lookup_2. exact Hd.
      * exists e. split; [left|]. split; [exact Hke|].
        apply py_int_min_127.
    + apply elem_of_cons in Hin as [Heq|Hin]; [discriminate|].
      destruct (IH Hk c n v t' Hin) as (Hdeg & e' & He' & Hke' & Hv').
      split; [exact Hdeg|]. exists e'. split; [right; exact He'|]. auto.
Qed.

(** X10. Every NoteOn of a medium track has a pitch from the palette "scale
    degree plus [base_octave * 12]"; and when the threshold is at least
    1, as by default, every NoteOn has velocity 127: the velocity then
    carries nothing of the intensity. *)
Theorem medium_track_palette (cfg : medium_config) (data : list sample)
    (track : MidiTrack) :
  _create_medium_track cfg data = Ok track →
  ∀ c n v t, note_on c n v t ∈ track →
    (∃ degree, degree ∈ md_scale cfg ∧ n = degree + md_base_octave cfg * 12)
    ∧ ((1 <= md_threshold cfg)%Q → v = 127).
Proof.
  intros H c n v t Hin.
  destruct (medium_track_notes _ _ _ H) as (msgs & -> & Hm).
  apply elem_of_cons in Hin as [Heq|Hin]; [discriminate|].
  destruct (medium_notes_kept_values _ _ _ _ Hm) with (c := c) (n := n)
    (v := v) (t := t) as (Hdeg & e & _ & Hke & ->); [|exact Hin|].
  - apply Forall_forall. intros e He.
    apply list_elem_of_filter in He as [He _]. exact He.
  - split; [exact Hdeg|]. intros Hthr.
    assert (Hi : (1 <= get e "intensity" 0)%Q)
      by (eapply Qle_trans; [exact Hthr | exact Hke]).
    rewrite py_int_nonneg by lra.
    assert (127 <= Qfloor (get e "intensity" 0 * 127)); [|lia].
    apply Qfloor_ge_Z. change (inject_Z 127) with 127%Q. lra.
Qed.

Lemma medium_track_palette_witness :
  _create_medium_track (medium default_settings) Examples.medium_stream
  = Ok Examples.medium_stream_track
  ∧ note_on 0 52 127 480 ∈ Examples.medium_stream_track
  ∧ (∃ degree, degree ∈ md_scale (medium default_settings)
       ∧ 52 = degree + md_base_octave (medium default_settings) * 12)
  ∧ ((1 <= md_threshold (medium default_settings))%Q → 127 = 127).
Proof.
  assert (H : _create_medium_track (medium default_settings)
                Examples.medium_stream = Ok Examples.medium_stream_track)
    by (vm_compute; reflexivity).
  assert (Hin : note_on 0 52 127 480 ∈ Examples.medium_stream_track)
    by (do 3 right; left).
  split; [exact H|]. split; [exact Hin|].
  exact (medium_track_palette (medium default_settings)
           Examples.medium_stream Examples.medium_stream_track H
           0 52 127 480 Hin).
Defined.

(** ** When the background track is built *)





(** ** More on the details track *)

Lemma secondary_notes_shape nr es : ∀ msgs,
  secondary_notes nr es msgs →
  length msgs = (2 * length es)%nat
  ∧ filter is_main_note msgs = []
  ∧ Forall (λ m, 0 <= time m) msgs
  ∧ (es ≠ [] → ∃ n, last msgs = Some (note_off 0 n 64 28)).
Proof.
  induction es as [|e es IH]; intros msgs H.
  - destruct msgs; [|contradiction]. repeat split; try constructor. congruence.
  - destruct msgs as [|on [|off msgs]]; try contradiction.
    destruct H as [(note & _ & -> & ->) H].
    apply IH in H as (Hlen & Hmain & Hpos & Hlast).
    split; [simpl; lia|]. split; [exact Hmain|].
    split.
    { constructor; [simpl; lia|].
      constructor; [vm_compute; discriminate | exact Hpos]. }
    intros _. destruct es as [|e' es].
    + destruct msgs; [|simpl in Hlen; discriminate]. exists note. reflexivity.
    + destruct Hlast as [n Hn]; [discriminate|]. exists n.
      destruct msgs; [discriminate|]. exact Hn.
Qed.

Lemma filter_main_event_length (events : list sample) (main : sample) :
  main ∈ events →
  (length (filter (λ e, e ≠ main) events) < length events)%nat
  ∧ (NoDup events →
     S (length (filter (λ e, e ≠ main) events)) = length events).
Proof.
  intros Hin. apply list_elem_of_split in Hin as (pre & post & ->).
  rewrite filter_app, filter_cons_False, !length_app by tauto. simpl.
  pose proof (length_filter (λ e, e ≠ main) pre) as Hpre.
  pose proof (length_filter (λ e, e ≠ main) post) as Hpost.
  split; [lia|]. intros Hnd.
  apply NoDup_app in Hnd as (_ & Hdisj & Hnd).
  apply NoDup_cons in Hnd as [Hpost' _].
  assert (Hpre' : main ∉ pre).
  { intros Hin. apply (Hdisj main Hin). left. }
  assert (Hall : ∀ l : list sample, main ∉ l → filter (λ e, e ≠ main) l = l).
  { intros l Hl. induction l as [|x l IHl]; [reflexivity|].
    apply not_elem_of_cons in Hl as [Hne Hl].
    rewrite filter_cons_True by congruence. f_equal. apply IHl, Hl. }
  rewrite (Hall pre Hpre'), (Hall post Hpost'). lia.
Qed.

Lemma is_main_event_elem (events : list sample) (main : sample) :
  is_main_event events main → main ∈ events.
Proof. intros (pre & post & -> & _). set_solver. Qed.

Lemma flush_shape (track : MidiTrack) (events : list sample) (nr : list Q)
    (track' : MidiTrack) :
  events ≠ [] →
  _add_note_cluster track events nr = Ok track' →
  length (filter is_main_note track')
  = S (length (filter is_main_note track))
  ∧ (length track + 2 <= length track' <= length track + 2 * length events)%nat
  ∧ (NoDup events →
     length track' = (length track + 2 * length events)%nat)
  ∧ ∃ n, last track' = Some (note_off 0 n 64 48)
         ∨ last track' = Some (note_off 0 n 64 28).
Proof.
  intros Hne H.
  apply add_note_cluster_Ok in H
    as (main & note & gap & secondary & Hmain & _ & _ & -> & Hsec);
    [|exact Hne].
  apply secondary_notes_shape in Hsec as (Hlen & Hnomain & _ & Hlast).
  apply is_main_event_elem, filter_main_event_length in Hmain as [Hlt Hnd].
  split; [|split; [|split]].
  - rewrite !filter_app, !length_app, Hnomain. simpl. lia.
  - rewrite !length_app, Hlen. simpl. lia.
  - intros Hd. specialize (Hnd Hd). rewrite !length_app, Hlen. simpl. lia.
  - destruct (filter (λ e, e ≠ main) events) as [|e es].
    + destruct secondary; [|discriminate]. exists note. left.
      rewrite app_nil_r, last_app. reflexivity.
    + destruct Hlast as [n Hn]; [discriminate|]. exists n. right.
      rewrite app_assoc, last_app, Hn. reflexivity.
Qed.




(** X13. After a cluster has been flushed the track ends with a NoteOff whose
    [time] is 48 ticks (the main note's, when no other note was played)
    or 28 ticks (a secondary note's). The main NoteOn of the cluster
    flushed next therefore carries the tick conversion of its main
    event's time in milliseconds minus 48 or 28: the previous cluster's
    own time does not enter. *)
Theorem cluster_after_cluster_delta (track : MidiTrack)
    (c1 c2 : list sample) (nr : list Q) (track1 track2 : MidiTrack) :
  c1 ≠ [] → c2 ≠ [] →
  _add_note_cluster track c1 nr = Ok track1 →
  _add_note_cluster track1 c2 nr = Ok track2 →
  ∃ main t note d rest,
    is_main_event c2 main
    ∧ getitem main "time" = Ok t
    ∧ (d = 48 ∨ d = 28)
    ∧ track2 = track1
               ++ note_on 0 note 127 (ms_to_ticks (t - inject_Z d)) :: rest.
Proof.
  intros Hc1 Hc2 H1 H2.
  apply flush_shape in H1 as (_ & _ & _ & n & Hlast); [|exact Hc1].
  apply add_note_cluster_Ok in H2
    as (main & note & gap & secondary & Hmain & _ & Hgap & -> & _);
    [|exact Hc2].
  destruct Hlast as [Hlast|Hlast]; rewrite Hlast in Hgap;
    destruct Hgap as (t & Ht & ->); simpl.
  - exists main, t, note, 48. eauto 10.
  - exists main, t, note, 28. eauto 10.
Qed.

Lemma cluster_after_cluster_delta_witness :
  ∃ main t note d rest,
    is_main_event (Examples.at_time <$> [80; 90]) main
    ∧ getitem main "time" = Ok t
    ∧ (d = 48 ∨ d = 28)
    ∧ Examples.five_events_track
      = [program_change 2 127 0; note_on 0 84 127 0; note_off 0 84 64 48;
         note_on 0 84 90 0; note_off 0 84 64 28;
         note_on 0 84 90 0; note_off 0 84 64 28]
        ++ note_on 0 note 127 (ms_to_ticks (t - inject_Z d)) :: rest.
Proof.
  apply (cluster_after_cluster_delta [program_change 2 127 0]
           (Examples.at_time <$> [0; 10; 20])
           (Examples.at_time <$> [80; 90]) [84; 96]%Q);
    [discriminate | discriminate | vm_compute; reflexivity
    | vm_compute; reflexivity].
Defined.

(** ** Delta times *)

Lemma ms_to_ticks_nonneg (m : Q) : (0 <= m)%Q → 0 <= ms_to_ticks m.
Proof.
  intros Hm. rewrite ms_to_ticks_scaled.
  rewrite py_int_nonneg by lra. apply Qfloor_nonneg. lra.
Qed.

Lemma time_ordered_app (l1 l2 : list sample) :
  time_ordered (l1 ++ l2) →
  time_ordered l1 ∧ time_ordered l2
  ∧ ∀ a b, a ∈ l1 → b ∈ l2 → (get a "time" 0 <= get b "time" 0)%Q.
Proof.
  induction l1 as [|x l1 IH]; simpl.
  - intros H. repeat split; [exact H|]. intros a b Ha. inversion Ha.
  - intros [Hx H]. apply IH in H as (H1 & H2 & H12).
    apply Forall_app in Hx as [Hx1 Hx2].
    repeat split; try assumption.
    intros a b Ha Hb. apply elem_of_cons in Ha as [->|Ha].
    + rewrite Forall_forall in Hx2. apply Hx2, Hb.
    + apply H12; assumption.
Qed.

Lemma time_ordered_filter (P : sample → Prop) `{∀ e, Decision (P e)}
    (l : list sample) :
  time_ordered l → time_ordered (filter P l).
Proof.
  induction l as [|x l IH]; [intros _; exact I|]. intros [Hx Hl].
  specialize (IH Hl). destruct (decide (P x)) as [Hp|Hp].
  - rewrite filter_cons_True by exact Hp. split; [|exact IH].
    rewrite Forall_forall in *. intros b Hb.
    apply Hx. apply list_elem_of_filter in Hb as [_ Hb]. exact Hb.
  - rewrite filter_cons_False by exact Hp. exact IH.
Qed.

Lemma background_body_nonneg base decay data : ∀ lt lh msgs,
  (0 <= decay)%Q → time_ordered data →
  Forall (λ e, (lt <= get e "time" 0)%Q) data →
  background_track_body base decay lt lh data msgs →
  Forall (λ m, 0 <= time m) msgs.
Proof.
  induction data as [|e data IH]; intros lt lh msgs Hd Hord Hlt Hb.
  - destruct msgs; [constructor | destruct Hb].
  - destruct msgs as [|cc [|on [|off msgs]]];
      try (simpl in Hb; contradiction).
    destruct Hb as [(t & vel & Ht & -> & _ & -> & ->) Hb].
    apply getitem_get in Ht as [<- _].
    apply Forall_cons in Hlt as [Hlt _]. destruct Hord as [He Hord].
    constructor; [simpl; apply ms_to_ticks_nonneg; lra|].
    constructor; [simpl; lia|].
    constructor; [simpl; apply ms_to_ticks_nonneg, Hd|].
    eapply IH; eauto.
Qed.

Lemma medium_notes_nonneg cfg last ks msgs :
  medium_notes cfg last ks msgs →
  (0 <= md_decay cfg)%Q → time_ordered ks →
  Forall (λ e, (last <= get e "time" 0)%Q) ks →
  Forall (λ m, 0 <= time m) msgs.
Proof.
  intros H Hd. induction H as [|last e t note rest msgs Ht _ _ _ _ IH];
    intros Hord Hlast; [constructor|].
  apply getitem_get in Ht as [<- _].
  apply Forall_cons in Hlast as [Hlast _]. destruct Hord as [He Hord].
  constructor; [simpl; apply ms_to_ticks_nonneg; lra|].
  constructor; [simpl; apply ms_to_ticks_nonneg, Hd|].
  apply IH; [exact Hord | exact He].
Qed.

Lemma flush_all_nonneg thr nr (cs : list (list sample)) : ∀ track track' m,
  (48 <= thr)%Q →
  Forall (λ c, c ≠ []) cs → separated thr cs →
  well_timed (concat cs) →
  Forall (λ m, 0 <= time m) track →
  last track = Some m →
  Forall (λ e, (inject_Z (time m) <= get e "time" 0)%Q) (concat cs) →
  for_each (λ tr c, _add_note_cluster tr c nr) track cs = Ok track' →
  Forall (λ m, 0 <= time m) track'.
Proof.
  induction cs as [|c cs IH];
    intros track track' m Hthr Hne Hsep [Hord Hpos] Htrack Hlast Hm H.
  - injection H as <-. exact Htrack.
  - rewrite for_each_cons in H. apply bind_Ok in H as (t1 & Ht1 & H).
    apply Forall_cons in Hne as [Hc Hne].
    pose proof Ht1 as Hshape.
    apply flush_shape in Hshape as (_ & _ & _ & n & Hl1); [|exact Hc].
    apply add_note_cluster_Ok in Ht1
      as (main & note & gap & secondary & Hmain & _ & Hgap & -> & Hsec);
      [|exact Hc].
    rewrite Hlast in Hgap. destruct Hgap as (t & Ht & ->).
    apply getitem_get in Ht as [<- _].
    apply secondary_notes_shape in Hsec as (_ & _ & Hsecpos & _).
    apply is_main_event_elem in Hmain.
    simpl in Hord, Hpos, Hm.
    apply time_ordered_app in Hord as (_ & Hordcs & Hcross).
    apply Forall_app in Hpos as [Hposc Hposcs].
    apply Forall_app in Hm as [Hmc _].
    set (t := get main "time" 0) in *.
    assert (Htrack1 : Forall (λ m, 0 <= time m)
              (track ++ [note_on 0 note 127 (ms_to_ticks
                                               (t - inject_Z (time m)));
                         note_off 0 note 64 (ms_to_ticks 50)] ++ secondary)).
    { apply Forall_app. split; [exact Htrack|].
      constructor.
      { simpl. apply ms_to_ticks_nonneg. rewrite Forall_forall in Hmc.
        specialize (Hmc main Hmain). unfold t. lra. }
      constructor; [vm_compute; discriminate | exact Hsecpos]. }
    assert (Hbound : ∀ m', (last (track ++ [note_on 0 note 127
                                 (ms_to_ticks (t - inject_Z (time m)));
                               note_off 0 note 64 (ms_to_ticks 50)]
                               ++ secondary) = Some m') →
                           Forall (λ e, (inject_Z (time m')
                                         <= get e "time" 0)%Q) (concat cs)).
    { intros m' Hm'.
      assert (Hle : time m' <= 48).
      { destruct Hl1 as [Hl1|Hl1]; rewrite Hl1 in Hm';
          injection Hm' as <-; simpl; lia. }
      destruct cs as [|c2 cs]; [constructor|].
      destruct Hsep as [(a & b & Ha & Hb & Hgap) _].
      assert (Hac : a ∈ c).
      { apply last_Some in Ha as (l' & ->).
        apply elem_of_app. right. left. }
      assert (Ha0 : (0 <= get a "time" 0)%Q).
      { rewrite Forall_forall in Hposc. apply Hposc, Hac. }
      destruct c2 as [|b' c2]; [discriminate|]. injection Hb as ->.
      simpl in Hordcs. destruct Hordcs as [Hb _].
      assert (Hm48 : (inject_Z (time m') <= 48)%Q).
      { change 48%Q with (inject_Z 48). rewrite <- Zle_Qle. exact Hle. }
      simpl. constructor; [lra|].
      eapply Forall_impl; [exact Hb|]. simpl. intros e He. lra. }
    destruct Hl1 as [Hl1|Hl1].
    + eapply (IH _ _ _ Hthr Hne); try exact H; try exact Hl1;
        [destruct cs; [exact I | apply Hsep] | split; assumption
        | exact Htrack1 | apply Hbound, Hl1].
    + eapply (IH _ _ _ Hthr Hne); try exact H; try exact Hl1;
        [destruct cs; [exact I | apply Hsep] | split; assumption
        | exact Htrack1 | apply Hbound, Hl1].
Qed.

(** X14. Every message of the score has a non-negative delta time when the
    three streams carry non-negative timestamps in order, the decays are
    not negative and the group threshold of the details track is at
    least 48 (the default is 50): the gap that opens a new cluster then
    covers the 48 or 28 ticks that the main note's delta subtracts. *)
Theorem score_times_nonneg (cfg : settings)
    (analysis_data : gmap string (list sample)) (mid : MidiFile) :
  (0 <= bg_decay (background cfg))%Q →
  (0 <= md_decay (medium cfg))%Q →
  (48 <= dt_group_threshold (details cfg))%Q →
  well_timed (stream analysis_data "background") →
  well_timed (stream analysis_data "medium") →
  well_timed (stream analysis_data "details") →
  create_multitrack_midi cfg analysis_data = Ok mid →
  Forall (Forall (λ m, 0 <= time m)) (tracks mid).
Proof.
  intros Hbd Hmd Hthr [Hbo Hbp] [Hmo Hmp] [Hdo Hdp] H.
  unfold create_multitrack_midi in H.
  apply bind_Ok in H as (bg & Hbg & H). apply bind_Ok in H as (md & Hmed & H).
  apply bind_Ok in H as (dt & Hdt & H). injection H as <-. simpl.
  constructor; [constructor; [simpl; lia | constructor]|].
  constructor.
  { unfold _create_background_track in Hbg. inv_bind Hbg.
    injection Hbg as <-.
    apply new_program_change_Ok in Ha as (-> & _).
    apply background_loop_sound in Ha0 as (msgs & -> & Hm).
    apply Forall_app. split; [constructor; [simpl; lia | constructor]|].
    exact (background_body_nonneg _ _ _ _ _ _ Hbd Hbo Hbp Hm). }
  constructor.
  { apply medium_track_notes in Hmed as (msgs & -> & Hm).
    constructor; [simpl; lia|].
    eapply medium_notes_nonneg;
      [exact Hm | exact Hmd | apply time_ordered_filter, Hmo|].
    rewrite Forall_forall in *. intros e He.
    apply list_elem_of_filter in He as [_ He]. apply Hmp, He. }
  constructor; [|constructor].
  apply details_track_flushes in Hdt as [_ Hdt].
  apply (flush_all_nonneg (dt_group_threshold (details cfg))
           (dt_note_range (details cfg))
           (clusters (dt_group_threshold (details cfg))
              (stream analysis_data "details"))
           [program_change 2 (dt_program (details cfg)) 0] dt
           (program_change 2 (dt_program (details cfg)) 0) Hthr).
  - apply clusters_from_nonempty.
  - apply clusters_from_separated.
  - unfold clusters. rewrite clusters_from_concat. split; assumption.
  - constructor; [simpl; lia | constructor].
  - reflexivity.
  - unfold clusters. rewrite clusters_from_concat. exact Hdp.
  - exact Hdt.
Qed.

Lemma score_times_nonneg_witness :
  ∃ mid,
    create_multitrack_midi default_settings Examples.sample_data = Ok mid
    ∧ Forall (Forall (λ m, 0 <= time m)) (tracks mid).
Proof.
  eexists. split; [vm_compute; reflexivity|].
  apply (score_times_nonneg default_settings Examples.sample_data);
    [vm_compute; discriminate | vm_compute; discriminate
    | vm_compute; discriminate | | | | vm_compute; reflexivity];
    (split; [simpl; repeat split; repeat constructor; vm_compute; discriminate
            | repeat constructor; vm_compute; discriminate]).
Defined.

(** With a group threshold below 48 the main note of a later cluster
    can get a negative delta: detections at 0 ms and 40 ms under the
    threshold 30 ms. *)
Example short_threshold_negative_delta :
  _create_details_track
    {| dt_program := 127; dt_note_range := [84; 96]%Q;
       dt_group_threshold := 30 |}
    Examples.bare_stream
  = Ok [program_change 2 127 0;
        note_on 0 84 127 0; note_off 0 84 64 48;
        note_on 0 84 127 (-7); note_off 0 84 64 48].
Proof. vm_compute. reflexivity. Qed.

(** ** The region of interest *)

Lemma validate_roi_shape (roi : list Z) (width height : Z) :
  1 <= width → 1 <= height →
  in_frame width height (MotionDetector._validate_roi roi width height).
Proof.
  intros Hw Hh. unfold MotionDetector._validate_roi, index.
  destruct roi as [|r0 [|r1 [|r2 [|r3 rest]]]]; simpl;
    try (exists 0, 0, width, height; split; [reflexivity | lia]).
  destruct (decide _) as [Hbad|Hgood].
  - exists 0, 0, width, height. split; [reflexivity | lia].
  - eexists _, _, _, _. split; [reflexivity | lia].
Qed.




Lemma convert_zone_shape (x1 y1 x2 y2 : Z) (zone : list Z) :
  x1 < x2 → y1 < y2 →
  ∃ rel,
    MotionDetector._convert_to_roi_coordinates [x1; y1; x2; y2] zone
    = Ok rel
    ∧ in_frame (x2 - x1) (y2 - y1) rel
    ∧ ∀ a b c d,
        zone = [a; b; c; d] →
        x1 <= a < c → c <= x2 → y1 <= b < d → d <= y2 →
        rel = [a - x1; b - y1; c - x1; d - y1].
Proof.
  intros Hx Hy.
  assert (Hfull : in_frame (x2 - x1) (y2 - y1) [0; 0; x2 - x1; y2 - y1]).
  { eexists _, _, _, _. split; [reflexivity | lia]. }
  unfold MotionDetector._convert_to_roi_coordinates,
    MotionDetector.full_roi, index.
  destruct zone as [|a [|b [|c [|d [|e rest]]]]]; simpl;
    try (eexists; split; [reflexivity|]; split; [exact Hfull|];
         intros ? ? ? ? [=]).
  destruct (decide _) as [Hbad|Hgood]; simpl.
  - eexists. split; [reflexivity|]. split; [exact Hfull|].
    intros ? ? ? ? [= <- <- <- <-] ? ? ? ?. lia.
  - eexists. split; [reflexivity|]. split.
    + eexists _, _, _, _. split; [reflexivity | lia].
    + intros ? ? ? ? [= <- <- <- <-] ? ? ? ?. f_equal; [lia|].
      f_equal; [lia|]. f_equal; [lia|]. f_equal. lia.
Qed.



(** X17. After [_validate_roi] on a frame of at least one pixel each way,
    [_convert_to_roi_coordinates] returns for every zone a rectangle of
    positive width and height inside the cropped image, whose size is
    that of the ROI and at most that of the frame. The test
    [x2 <= x1 or y2 <= y1] that [_analyze_mid_motion] makes on the
    result is then never true. *)
Theorem cropped_zone_in_frame (roi zone : list Z) (width height : Z) :
  1 <= width → 1 <= height →
  ∃ x1 y1 x2 y2 rel,
    MotionDetector._validate_roi roi width height = [x1; y1; x2; y2]
    ∧ MotionDetector._convert_to_roi_coordinates [x1; y1; x2; y2] zone
      = Ok rel
    ∧ in_frame (x2 - x1) (y2 - y1) rel
    ∧ x2 - x1 <= width ∧ y2 - y1 <= height.
Proof.
  intros Hw Hh.
  destruct (validate_roi_shape roi width height Hw Hh)
    as (x1 & y1 & x2 & y2 & Hroi & Hx & Hx2 & Hy & Hy2).
  destruct (convert_zone_shape x1 y1 x2 y2 zone) as (rel & Hrel & Hin & _);
    [lia | lia |].
  exists x1, y1, x2, y2, rel. repeat split; try assumption; lia.
Qed.

Lemma cropped_zone_in_frame_witness :
  ∃ x1 y1 x2 y2 rel,
    MotionDetector._validate_roi [100; 50; 5000; 350] 640 480
    = [x1; y1; x2; y2]
    ∧ MotionDetector._convert_to_roi_coordinates [x1; y1; x2; y2]
        [0; 0; 300; 200]
      = Ok rel
    ∧ in_frame (x2 - x1) (y2 - y1) rel
    ∧ x2 - x1 <= 640 ∧ y2 - y1 <= 480.
Proof.
  apply (cropped_zone_in_frame [100; 50; 5000; 350] [0; 0; 300; 200]
           640 480); lia.
Defined.

(** ** Loading the configuration *)

Lemma dict_get_empty (key : string) (default : value) :
  dict_get ∅ key default = default.
Proof. unfold dict_get. rewrite lookup_empty. reflexivity. Qed.

Lemma validate_empty :
  Config.validate (VDict ∅)
  = Some {| Config.raw_roi := Config.default_roi;
            Config.raw_blur := VInt 5;
            Config.raw_tracks := Config.default_tracks |}.
Proof. vm_compute. reflexivity. Qed.

Lemma default_tracks_truthy : truthy Config.default_tracks = true.
Proof.
  unfold Config.default_tracks. simpl. apply negb_true_iff.
  apply bool_decide_eq_false. intros H.
  apply (f_equal (λ m : gmap string value, m !! "background")) in H.
  rewrite lookup_empty in H. vm_compute in H. discriminate.
Qed.

Lemma validate_shape (data : value) (c : Config.raw) :
  Config.validate data = Some c →
  length (Config.raw_roi c) = 4%nat ∧ truthy (Config.raw_tracks c) = true.
Proof.
  unfold Config.validate. destruct data as [| | | | | |d]; try discriminate.
  destruct (dict_get d "global" (VDict ∅)) as [| | | | | |g];
    try discriminate.
  intros [= <-]. simpl. split.
  - destruct (dict_get g "roi" _) as [| | | | |xs|]; try reflexivity.
    destruct (decide (length xs = 4%nat)); [assumption | reflexivity].
  - destruct (truthy (dict_get d "tracks" (VDict ∅))) eqn:Ht;
      [exact Ht | apply default_tracks_truthy].
Qed.

(** X18. [Config.load] returns a configuration for every file, readable or
    not: its ROI has four entries and its track table is not empty. When
    the file cannot be read, or holds something [validate] rejects (a
    top level or a [global] entry that is not a mapping), the result is
    the built-in default. *)
Theorem load_always_returns (contents : option value) :
  ∃ c,
    Config.load contents = Some c
    ∧ length (Config.raw_roi c) = 4%nat
    ∧ truthy (Config.raw_tracks c) = true
    ∧ (contents ≫= Config.validate = None →
       c = {| Config.raw_roi := Config.default_roi;
              Config.raw_blur := VInt 5;
              Config.raw_tracks := Config.default_tracks |}).
Proof.
  unfold Config.load.
  destruct (contents ≫= Config.validate) as [c|] eqn:Hc.
  - exists c. split; [reflexivity|].
    destruct contents as [data|]; [|discriminate]. simpl in Hc.
    apply validate_shape in Hc as [Hroi Htracks].
    split; [exact Hroi|]. split; [exact Htracks | discriminate].
  - rewrite validate_empty. eexists. split; [reflexivity|].
    split; [reflexivity|]. split; [apply default_tracks_truthy|].
    reflexivity.
Qed.






(** The converse fails: a ROI of three entries makes the analyzer raise,
    while the loader puts the default ROI in its place. *)
Example loader_accepts_what_detector_rejects :
  let data :=
    VDict {[ "global" := VDict {[
      "roi" := VList [VInt 0; VInt 0; VInt 100] ]} ]} in
  MotionDetector.init (Some data) = None
  ∧ Config.raw_roi <$> Config.load (Some data) = Some Config.default_roi.
Proof. split; vm_compute; reflexivity. Qed.

(** ** More on the deep merge *)

Lemma merge_entry_keys (dk uk rk : option value) :
  merge_entry dk uk = Some rk → (is_Some rk ↔ is_Some dk ∨ is_Some uk).
Proof.
  unfold merge_entry. destruct uk as [u|].
  - intros H. assert (Hrk : is_Some rk).
    { destruct u; try (injection H as <-; eauto).
      destruct dk as [dv|]; [|injection H as <-; eauto].
      destruct (_merge_configs dv (VDict m)); [|discriminate].
      injection H as <-. eauto. }
    split; [eauto | intros _; exact Hrk].
  - intros [= <-]. split; [eauto|]. intros [H|[? [=]]]. exact H.
Qed.

(** X20. The empty map is neutral on both sides of the merge, and the merge
    neither drops nor invents a key: an empty user configuration leaves
    the defaults, empty defaults give the user's map, and the keys of a
    merged map are those of the defaults together with those of the
    user. *)
Theorem merge_keeps_every_key (dm um : gmap string value) :
  _merge_configs (VDict dm) (VDict ∅) = Some (VDict dm)
  ∧ _merge_configs (VDict ∅) (VDict um) = Some (VDict um)
  ∧ ∀ merged,
      _merge_configs (VDict dm) (VDict um) = Some merged →
      ∃ rm, merged = VDict rm
            ∧ ∀ key, is_Some (rm !! key)
                     ↔ is_Some (dm !! key) ∨ is_Some (um !! key).
Proof.
  split; [|split].
  - apply merge_configs_dicts_Some. intros k. rewrite lookup_empty.
    reflexivity.
  - apply merge_configs_dicts_Some. intros k. rewrite lookup_empty.
    unfold merge_entry. destruct (um !! k) as [[]|]; reflexivity.
  - intros merged H.
    apply merge_configs_Some in H
      as (um' & [= <-] & [(xs & [=] & _)|(dm' & rm & [= <-] & -> & Hspec)]).
    exists rm. split; [reflexivity|]. intros key.
    apply merge_entry_keys, Hspec.
Qed.

(** X21. The merge raises exactly when the shapes of defaults and user do not
    agree: the user is not a map, or holds a map at a place where the
    defaults hold a scalar, or a non-empty map where they hold a list. *)
Theorem merge_raises_iff (default user : value) :
  _merge_configs default user = None ↔ ¬ shapes_agree default user.
Proof.
  rewrite <- merge_completes_iff, <- eq_None_not_Some. reflexivity.
Qed.




(** ** Presets, key by key *)


(** ** The score of an empty analysis *)

Lemma program_only_track (program channel : Z) (track : MidiTrack) :
  new_program_change program channel 0 ≫= (λ pc, Ok [pc]) = Ok track
  ↔ track = [program_change channel program 0]
    ∧ 0 <= program <= 127 ∧ 0 <= channel <= 15.
Proof.
  rewrite bind_Ok. split.
  - intros (pc & Hpc & [= <-]).
    apply new_program_change_Ok in Hpc as (-> & Hp & Hc). auto.
  - intros (-> & Hp & Hc). eexists. split; [|reflexivity].
    apply new_program_change_Ok. auto.
Qed.

(** X24. For an analysis without samples (no frame was read) the score is
    built exactly when the three programs are data bytes, and then holds
    the tempo track and three tracks with their ProgramChange alone, on
    channels 0, 1 and 2; the base note, scale and note range are not
    looked at. *)
Theorem score_of_empty_analysis (cfg : settings) :
  (is_ok (create_multitrack_midi cfg ∅)
   ↔ 0 <= bg_program (background cfg) <= 127
     ∧ 0 <= md_program (medium cfg) <= 127
     ∧ 0 <= dt_program (details cfg) <= 127)
  ∧ ∀ mid,
      create_multitrack_midi cfg ∅ = Ok mid →
      tracks mid
      = [[set_tempo 500000 0];
         [program_change 0 (bg_program (background cfg)) 0];
         [program_change 1 (md_program (medium cfg)) 0];
         [program_change 2 (dt_program (details cfg)) 0]].
Proof.
  unfold create_multitrack_midi, stream. rewrite !lookup_empty. simpl.
  unfold _create_background_track, _create_medium_track,
    _create_details_track. simpl.
  split.
  - split.
    + intros [mid H]. inv_bind H.
      apply program_only_track in Ha as (_ & Hb & _).
      apply program_only_track in Ha0 as (_ & Hm & _).
      apply program_only_track in Ha1 as (_ & Hd & _).
      auto.
    + intros (Hb & Hm & Hd).
      assert (H0 : 0 <= 0 <= 15) by lia. assert (H1 : 0 <= 1 <= 15) by lia.
      assert (H2 : 0 <= 2 <= 15) by lia.
      rewrite (proj2 (program_only_track _ 0 _) (conj eq_refl (conj Hb H0))).
      cbn [mbind result_bind bind].
      rewrite (proj2 (program_only_track _ 1 _) (conj eq_refl (conj Hm H1))).
      cbn [mbind result_bind bind].
      rewrite (proj2 (program_only_track _ 2 _) (conj eq_refl (conj Hd H2))).
      cbn [mbind result_bind bind]. eexists. reflexivity.
  - intros mid H. inv_bind H. injection H as <-.
    apply program_only_track in Ha as (-> & _).
    apply program_only_track in Ha0 as (-> & _).
    apply program_only_track in Ha1 as (-> & _).
    reflexivity.
Qed.
